(** * Offline-first event synchronisation: a shallow embedding

    The development follows the TypeScript sources of the repository:

    - [src/types/enums.ts]: the enumerations [EventStatus], [EventType];
    - [domain/entities/Event] (in [unnamed/part_001]): the [Event] entity;
    - [src/core/storage/database.ts] and its siblings: the [IDatabase]
      key-value interface and its backends;
    - [src/core/network/networkInfo.ts]: the connectivity oracle;
    - [data/local/eventLocalDataSource] (in [unnamed/part_000]):
      [EventLocalDataSource], the collection of events kept as one JSON text
      under one key;
    - [src/data/repositories/EventRepositoryImpl.ts]: [EventRepositoryImpl],
      the repository that creates, updates, deletes and reconciles events.

    Asynchronous code is embedded as state passing over a [World] (the
    connectivity report, the key-value store, the outcome of the successive
    store calls and the console); a rejected promise is a thrown exception,
    [await] is sequencing. *)

From Stdlib Require Import ZArith List String Lia.
From stdpp Require Import base option list strings gmap.

Local Open Scope string_scope.

(** ** Enumerations *)

Inductive EventStatus : Type := PENDING | SENT | FAILED.

Inductive EventType : Type := ACCIDENT | SERVICE | TRANSFER.

Definition EventStatus_eqb (a b : EventStatus) : bool :=
  match a, b with
  | PENDING, PENDING | SENT, SENT | FAILED, FAILED => true
  | _, _ => false
  end.

(** ** The Event entity

    [interface Event] declares the three timestamps as [Date].  At run time
    such a field holds either a [Date] object or, once the event went through
    [JSON.stringify]/[JSON.parse], the ISO-8601 string that [Date.toJSON]
    produced (the two cases [eventSlice.ts] tells apart with
    [instanceof Date] and [typeof ... === 'string']).  A valid [Date] is
    identified with its [toISOString()] text.

    The record is parametric in the representation of timestamps: in memory
    it is [Timestamp], inside a JSON text it is necessarily a string. *)

Inductive Timestamp : Type :=
| DateObject (iso : string)
| IsoString (text : string).

Record EventOf (T : Type) : Type := mkEvent {
  id : string;
  objectId : string;
  type : EventType;
  comment : string;
  occurredAt : T;
  photoUri : option string;
  status : EventStatus;
  syncAttempts : Z;
  lastSyncError : option string;
  createdAt : T;
  updatedAt : T;
  serverId : option string
}.

Arguments mkEvent {T}.
Arguments id {T}.
Arguments objectId {T}.
Arguments type {T}.
Arguments comment {T}.
Arguments occurredAt {T}.
Arguments photoUri {T}.
Arguments status {T}.
Arguments syncAttempts {T}.
Arguments lastSyncError {T}.
Arguments createdAt {T}.
Arguments updatedAt {T}.
Arguments serverId {T}.

(** An event as the program holds it, and as a JSON text holds it. *)
Definition Event : Type := EventOf Timestamp.
Definition JsonEvent : Type := EventOf string.

(** Assignments to a property of an event object. *)
Definition set_status {T} (s : EventStatus) (e : EventOf T) : EventOf T :=
  mkEvent (id e) (objectId e) (type e) (comment e) (occurredAt e) (photoUri e)
          s (syncAttempts e) (lastSyncError e) (createdAt e) (updatedAt e)
          (serverId e).

Definition set_syncAttempts {T} (n : Z) (e : EventOf T) : EventOf T :=
  mkEvent (id e) (objectId e) (type e) (comment e) (occurredAt e) (photoUri e)
          (status e) n (lastSyncError e) (createdAt e) (updatedAt e)
          (serverId e).

Definition set_lastSyncError {T} (m : option string) (e : EventOf T) : EventOf T :=
  mkEvent (id e) (objectId e) (type e) (comment e) (occurredAt e) (photoUri e)
          (status e) (syncAttempts e) m (createdAt e) (updatedAt e)
          (serverId e).

Definition mapTimestamps {A B} (f : A -> B) (e : EventOf A) : EventOf B :=
  mkEvent (id e) (objectId e) (type e) (comment e) (f (occurredAt e))
          (photoUri e) (status e) (syncAttempts e) (lastSyncError e)
          (f (createdAt e)) (f (updatedAt e)) (serverId e).

(** ** JSON

    [Date.prototype.toJSON] is [toISOString]; a string is written as it is. *)
Definition Timestamp_toJSON (t : Timestamp) : string :=
  match t with
  | DateObject iso => iso
  | IsoString text => text
  end.

(** What [JSON.stringify] writes for one event: every property, the dates
    through [toJSON]; an [undefined] optional property is left out, which the
    [option] fields already say. *)
Definition toJSON (e : Event) : JsonEvent := mapTimestamps Timestamp_toJSON e.

(** What [JSON.parse] (called without a reviver) builds for one event
    object: the timestamps stay strings. *)
Definition fromJSON (j : JsonEvent) : Event := mapTimestamps IsoString j.

(** A string held by the key-value store.  The program only creates such
    strings with [JSON.stringify], tests them with [!data] and hands them to
    [JSON.parse], so a string is represented by what those operations see:
    the empty string, a text that is no JSON, the JSON text of a value that
    is not an array, or the JSON text of an array of event objects.  (Arrays
    of anything else than event objects are not represented.) *)
Inductive Text : Type :=
| EmptyText
| NotJson
| JsonOther
| JsonArray (events : list JsonEvent).

(** The value [getEvents] hands out under the type [Event[]]: either really
    an array of events, or whatever else [JSON.parse] returned. *)
Inductive Parsed : Type :=
| Events (l : list Event)
| NotAnArray.

(** ** Exceptions and the monad of effects *)

Inductive Exn : Type :=
| SyntaxError
| TypeError (msg : string)
| Rejected (msg : string).   (* a store call whose promise rejects *)

(** [error.message] *)
Definition message (e : Exn) : string :=
  match e with
  | SyntaxError => "JSON Parse error"
  | TypeError msg => msg
  | Rejected msg => msg
  end.

Inductive Result (A : Type) : Type :=
| Ok (a : A)
| Throw (e : Exn).

Arguments Ok {A}.
Arguments Throw {A}.

Inductive LogLine : Type :=
| ConsoleLog (text : string)
| ConsoleWarn (text : string) (error : option Exn)
| ConsoleError (text : string) (error : Exn).

(** The world the repository runs in.
    - [netState]: [NetInfoState.isConnected], a boolean or [null];
    - [storage]: the contents of the [IDatabase] backend;
    - [faults]: the outcome of the store calls to come, in order; [Some msg]
      is a call that rejects with an error of that message, [None] one that
      goes through; once the list is used up every call goes through;
    - [console]: the lines printed so far, latest first. *)
Record World : Type := mkWorld {
  netState : option bool;
  storage : gmap string Text;
  faults : list (option string);
  console : list LogLine
}.

Definition M (A : Type) : Type := World -> Result A * World.

Definition ret {A} (a : A) : M A := fun w => (Ok a, w).

Definition throw {A} (e : Exn) : M A := fun w => (Throw e, w).

Definition bind {A B} (c : M A) (k : A -> M B) : M B :=
  fun w =>
    match c w with
    | (Ok a, w') => k a w'
    | (Throw e, w') => (Throw e, w')
    end.

(** [try { body } catch (error) { handler }] *)
Definition try_catch {A} (body : M A) (handler : Exn -> M A) : M A :=
  fun w =>
    match body w with
    | (Ok a, w') => (Ok a, w')
    | (Throw e, w') => handler e w'
    end.

Declare Scope js_scope.
Delimit Scope js_scope with js.
Notation "x <- c ;; k" := (bind c (fun x => k))
  (at level 100, c at next level, right associativity) : js_scope.
Notation "c ;; k" := (bind c (fun _ => k))
  (at level 100, right associativity) : js_scope.
Local Open Scope js_scope.

(** [for (const x of l) { body }] *)
Fixpoint forEach {A} (body : A -> M unit) (l : list A) : M unit :=
  match l with
  | [] => ret tt
  | x :: rest => body x ;; forEach body rest
  end.

Definition print (line : LogLine) : M unit :=
  fun w => (Ok tt, mkWorld (netState w) (storage w) (faults w) (line :: console w)).

(** ** JSON.stringify and JSON.parse on stored texts *)

Definition JSON_stringify (events : list Event) : Text :=
  JsonArray (map toJSON events).

Definition JSON_parse (data : Text) : M Parsed :=
  match data with
  | EmptyText | NotJson => throw SyntaxError
  | JsonOther => ret NotAnArray
  | JsonArray l => ret (Events (map fromJSON l))
  end.

(** [!data] for a string *)
Definition falsy (data : Text) : bool :=
  match data with
  | EmptyText => true
  | _ => false
  end.

(** Array methods called on the value [getEvents] returned: on anything but
    an array ([null], a number, a string, an object) the call raises a
    [TypeError].  Its message differs between engines; no operation stores
    or returns it. *)
Definition asArray (method : string) (v : Parsed) : M (list Event) :=
  match v with
  | Events l => ret l
  | NotAnArray => throw (TypeError (method ++ " is not a function"))
  end.

(** [Array.prototype.findIndex]; [None] stands for the index [-1] that the
    caller tells apart with [index >= 0]. *)
Fixpoint findIndex {A} (p : A -> bool) (l : list A) : option nat :=
  match l with
  | [] => None
  | x :: rest => if p x then Some 0 else option_map S (findIndex p rest)
  end.

(** ** IDatabase: the key-value store

    The backends ([Database] over AsyncStorage, [MemoryStorage],
    [SQLiteStorage], [ReduxStorage]) implement one interface, and the data
    source only knows the interface.  It is embedded as a finite map with
    calls that may reject, as those of [Database] do: a call either goes
    through, acting on the map, or rejects and leaves the map as it was.
    The data source uses [setItem], [getItem] and [removeItem] only. *)
Module IDatabase.

Definition call : M unit :=
  fun w =>
    match faults w with
    | [] => (Ok tt, w)
    | None :: later =>
        (Ok tt, mkWorld (netState w) (storage w) later (console w))
    | Some msg :: later =>
        (Throw (Rejected msg), mkWorld (netState w) (storage w) later (console w))
    end.

Definition setItem (key : string) (value : Text) : M unit :=
  call ;;
  fun w => (Ok tt, mkWorld (netState w) (<[key := value]> (storage w))
                           (faults w) (console w)).

Definition getItem (key : string) : M (option Text) :=
  call ;;
  fun w => (Ok (storage w !! key), w).

Definition removeItem (key : string) : M unit :=
  call ;;
  fun w => (Ok tt, mkWorld (netState w) (delete key (storage w))
                           (faults w) (console w)).

End IDatabase.

(** ** NetworkInfo *)
Module NetworkInfo.

(** [return state.isConnected ?? false] *)
Definition isConnected : M bool :=
  fun w => (Ok (default false (netState w)), w).

End NetworkInfo.

(** ** EventLocalDataSource *)
Module EventLocalDataSource.

Definition EVENTS_KEY : string := "events".

Definition saveEvents (events : list Event) : M unit :=
  let serialized := JSON_stringify events in
  IDatabase.setItem EVENTS_KEY serialized.

Definition getEvents : M Parsed :=
  data <- IDatabase.getItem EVENTS_KEY ;;
  match data with
  | None => ret (Events [])
  | Some data =>
      if falsy data then ret (Events [])
      else try_catch (JSON_parse data) (fun _ => ret (Events []))
  end.

Definition saveEvent (event : Event) : M unit :=
  events <- getEvents ;;
  events <- asArray "events.findIndex" events ;;
  let index := findIndex (fun e => String.eqb (id e) (id event)) events in
  let events :=
    match index with
    | Some index => <[index := event]> events
    | None => (events ++ [event])%list
    end in
  saveEvents events.

(** [events.find(e => e.id === id) || null] *)
Definition getEventById (i : string) : M (option Event) :=
  events <- getEvents ;;
  events <- asArray "events.find" events ;;
  ret (List.find (fun e => String.eqb (id e) i) events).

Definition deleteEvent (i : string) : M unit :=
  events <- getEvents ;;
  events <- asArray "events.filter" events ;;
  let filtered := List.filter (fun e => negb (String.eqb (id e) i)) events in
  saveEvents filtered.

Definition clearEvents : M unit :=
  IDatabase.removeItem EVENTS_KEY.

End EventLocalDataSource.

(** ** EventRepositoryImpl *)
Module EventRepositoryImpl.

Definition MAX_RETRY_ATTEMPTS : Z := 3.
Definition RETRY_DELAY : Z := 2000.

(** [error?.message || fallback]: the empty message is falsy. *)
Definition message_or (error : Exn) (fallback : string) : string :=
  if String.eqb (message error) "" then fallback else message error.

(** [createEvent] and [updateEvent] assign to properties of the object
    they are given, and return either that object or a copy of it.  Both
    are reported: the event returned, and the caller's object as the call
    leaves it. *)
Record Returned : Type := mkReturned {
  returned : Event;
  argument : Event
}.

Definition getAllEvents : M Parsed :=
  EventLocalDataSource.getEvents.

Definition getEventById (i : string) : M (option Event) :=
  EventLocalDataSource.getEventById i.

Definition createEvent (event : Event) : M Returned :=
  isConnected <- NetworkInfo.isConnected ;;
  if isConnected then
    try_catch
      (let localeEvent := event in
       let localeEvent := set_status SENT localeEvent in
       let localeEvent := set_syncAttempts 0 localeEvent in
       EventLocalDataSource.saveEvent localeEvent ;;
       ret (mkReturned localeEvent event))
      (fun error =>
         let event := set_status FAILED event in
         let event := set_syncAttempts 1 event in
         let event :=
           set_lastSyncError (Some (message_or error "Failed to sync")) event in
         EventLocalDataSource.saveEvent event ;;
         ret (mkReturned event event))
  else
    let event := set_status PENDING event in
    let event := set_syncAttempts 0 event in
    EventLocalDataSource.saveEvent event ;;
    ret (mkReturned event event).

Definition updateEvent (event : Event) : M Returned :=
  isConnected <- NetworkInfo.isConnected ;;
  if isConnected then
    (* [event.lastSyncError = ''] is an assignment to the caller's object,
       made after the copy was taken; a throw inside [try] happens after
       it, so the handler starts from the object so assigned. *)
    let localeEvent := event in
    let localeEvent := set_status SENT localeEvent in
    let localeEvent := set_syncAttempts 0 localeEvent in
    let event := set_lastSyncError (Some "") event in
    try_catch
      (EventLocalDataSource.saveEvent localeEvent ;;
       ret (mkReturned localeEvent event))
      (fun error =>
         print (ConsoleError "Failed to update event:" error) ;;
         let event := set_status FAILED event in
         let event :=
           set_syncAttempts
             (Z.min (syncAttempts event + 1) MAX_RETRY_ATTEMPTS) event in
         let event :=
           set_lastSyncError (Some (message_or error "Failed to sync")) event in
         EventLocalDataSource.saveEvent event ;;
         ret (mkReturned event event))
  else
    let event := set_status PENDING event in
    EventLocalDataSource.saveEvent event ;;
    ret (mkReturned event event).

Definition deleteEvent (i : string) : M unit :=
  isConnected <- NetworkInfo.isConnected ;;
  if isConnected then
    try_catch
      (EventLocalDataSource.deleteEvent i)
      (fun error =>
         print (ConsoleWarn "Failed to delete event from server:" (Some error)))
  else ret tt.

(** [e.status === PENDING || e.status === FAILED] *)
Definition pendingOrFailed (e : Event) : bool :=
  EventStatus_eqb (status e) PENDING || EventStatus_eqb (status e) FAILED.

(** The body of the [for] loop of [syncEvents]. *)
Definition syncEvent (event : Event) : M unit :=
  if (MAX_RETRY_ATTEMPTS <=? syncAttempts event)%Z then
    print (ConsoleWarn ("Event " ++ id event ++ " exceeded max retry attempts") None)
  else
    try_catch
      (let syncedEvent := event in
       let syncedEvent := set_status SENT syncedEvent in
       let syncedEvent := set_syncAttempts 0 syncedEvent in
       EventLocalDataSource.saveEvent syncedEvent ;;
       print (ConsoleLog ("Event " ++ id event ++ " synced successfully")))
      (fun error =>
         let event := set_syncAttempts (syncAttempts event + 1) event in
         let event :=
           set_lastSyncError (Some (message_or error "Sync failed")) event in
         let event :=
           if (MAX_RETRY_ATTEMPTS <=? syncAttempts event)%Z
           then set_status FAILED event
           else set_status PENDING event in
         EventLocalDataSource.saveEvent event ;;
         print (ConsoleWarn ("Failed to sync event " ++ id event ++ ":") (Some error))).

Definition syncEvents : M unit :=
  isConnected <- NetworkInfo.isConnected ;;
  if negb isConnected then
    print (ConsoleLog "No network connection. Sync will retry when online.")
  else
    try_catch
      (localEvents <- EventLocalDataSource.getEvents ;;
       localEvents <- asArray "localEvents.filter" localEvents ;;
       let pendingOrFailedEvents := List.filter pendingOrFailed localEvents in
       forEach syncEvent pendingOrFailedEvents)
      (fun error => print (ConsoleError "Sync process failed:" error)).

End EventRepositoryImpl.

(** ** MemoryStorage

    The in-memory backend, listed after the use case in
    [src/domain/usecases/createEvent.ts]: a [Map<string, string>].  None of
    its methods throws, so each is a function of the map. *)
Module MemoryStorage.

Definition setItem (key value : string) (store : gmap string string) : gmap string string :=
  <[key := value]> store.

(** [this.store.get(key) ?? null] *)
Definition getItem (key : string) (store : gmap string string) : option string :=
  store !! key.

Definition removeItem (key : string) (store : gmap string string) : gmap string string :=
  delete key store.

Definition clear (store : gmap string string) : gmap string string := ∅.

(** [items.forEach(([key, value]) => this.store.set(key, value))] *)
Definition multiSet (items : list (string * string)) (store : gmap string string)
    : gmap string string :=
  fold_left (fun store item => <[fst item := snd item]> store) items store.

(** [keys.map(key => this.store.get(key) ?? null)] *)
Definition multiGet (keys : list string) (store : gmap string string)
    : list (option string) :=
  map (fun key => store !! key) keys.

End MemoryStorage.

(** ** The events slice of the Redux store ([src/store/eventSlice.ts])

    The reducers on the list of events and its count of pending events.
    The slice keeps events serialised: [serializeEvent] writes a [Date] as
    its ISO string and leaves a string as it is, which is [toJSON].  The
    reducers of the [storage] field are left out. *)
Module EventSlice.

Inductive SyncStatus : Type := IDLE | SYNCING | SUCCESS | FAILURE.

Record EventState : Type := mkEventState {
  events : list JsonEvent;
  loading : bool;
  error : option string;
  syncStatus : SyncStatus;
  pendingCount : Z;
  storage : gmap string string
}.

Definition initialState : EventState :=
  mkEventState [] false None IDLE 0%Z ∅.

Definition serializeEvent (event : Event) : JsonEvent := toJSON event.

(** [e.status === 'PENDING'] *)
Definition isPending {T} (e : EventOf T) : bool := EventStatus_eqb (status e) PENDING.

Definition setEvents (payload : list Event) (state : EventState) : EventState :=
  mkEventState (map serializeEvent payload) (loading state) (error state)
               (syncStatus state)
               (Z.of_nat (length (List.filter isPending payload)))
               (storage state).

Definition addEvent (payload : Event) (state : EventState) : EventState :=
  mkEventState (events state ++ [serializeEvent payload])%list
               (loading state) (error state) (syncStatus state)
               (if isPending payload then (pendingCount state + 1)%Z else pendingCount state)
               (storage state).

Definition updateEvent (payload : Event) (state : EventState) : EventState :=
  match findIndex (fun e => String.eqb (id e) (id payload)) (events state) with
  | Some index =>
      match events state !! index with
      | Some old =>
          let oldPending := isPending old in
          let events' := <[index := serializeEvent payload]> (events state) in
          let pendingCount' :=
            if oldPending && negb (isPending payload)
            then Z.max 0 (pendingCount state - 1)%Z
            else if negb oldPending && isPending payload
                 then (pendingCount state + 1)%Z
                 else pendingCount state in
          mkEventState events' (loading state) (error state) (syncStatus state)
                       pendingCount' (storage state)
      | None => state
      end
  | None => state
  end.

Definition removeEvent (payload : string) (state : EventState) : EventState :=
  let event := List.find (fun e => String.eqb (id e) payload) (events state) in
  let pendingCount' :=
    match event with
    | Some e => if isPending e then Z.max 0 (pendingCount state - 1)%Z
                else pendingCount state
    | None => pendingCount state
    end in
  mkEventState (List.filter (fun e => negb (String.eqb (id e) payload)) (events state))
               (loading state) (error state) (syncStatus state)
               pendingCount' (storage state).

Definition setLoading (payload : bool) (state : EventState) : EventState :=
  mkEventState (events state) payload (error state) (syncStatus state)
               (pendingCount state) (storage state).

Definition setError (payload : option string) (state : EventState) : EventState :=
  mkEventState (events state) (loading state) payload (syncStatus state)
               (pendingCount state) (storage state).

Definition setSyncStatus (payload : SyncStatus) (state : EventState) : EventState :=
  mkEventState (events state) (loading state) (error state) payload
               (pendingCount state) (storage state).

End EventSlice.

(** ** The listener of [useAutoSync] (hooks in [src/types/enums.ts])

    The effect keeps one variable, [isOnline], initially [false].  Two
    things assign to it: the callback given to [networkInfo.observe], on
    every connectivity report, and the continuation of the initial
    [networkInfo.isConnected()] check, whenever that resolves. *)
Module AutoSync.

Inductive Happening : Type :=
| Report (isConnected : option bool)     (* the observe callback runs *)
| InitialCheck (connected : bool).       (* the initial check resolves *)

(** One happening: the new [isOnline], and whether
    [syncMutationRef.current.mutate()] is called. *)
Definition step (h : Happening) (isOnline : bool) : bool * bool :=
  match h with
  | Report state =>
      let wasOnline := isOnline in
      let isOnline := default false state in
      (isOnline, negb wasOnline && isOnline)
  | InitialCheck connected => (connected, false)
  end.

(** The number of calls of [mutate] over a sequence of happenings. *)
Fixpoint mutations (hs : list Happening) (isOnline : bool) : nat :=
  match hs with
  | [] => 0
  | h :: later =>
      let '(isOnline', mutate) := step h isOnline in
      (if mutate then 1 else 0) + mutations later isOnline'
  end.

End AutoSync.

(** ** CreateEventUseCase ([src/domain/usecases/createEvent.ts]) *)
Module CreateEventUseCase.

Record CreateEventParams : Type := mkParams {
  p_objectId : string;
  p_type : EventType;
  p_comment : string;
  p_occurredAt : Timestamp;
  p_photoUri : option string
}.

(** The constructor of [EventEntity] with the defaults of its parameters:
    an argument left out is [None]; [nowCreated] and [nowUpdated] are what
    the two [new Date()] of the defaults read. *)
Definition EventEntity (i objectId : string) (t : EventType) (c : string)
    (occurred : Timestamp) (photo : option string)
    (s : option EventStatus) (attempts : option Z) (lastError : option string)
    (created updated : option Timestamp) (server : option string)
    (nowCreated nowUpdated : string) : Event :=
  mkEvent i objectId t c occurred photo
          (default PENDING s) (default 0%Z attempts) lastError
          (default (DateObject nowCreated) created)
          (default (DateObject nowUpdated) updated) server.

(** [execute]; [uuid] is what [generateUUID()] returns (its module is not
    among the sources). *)
Definition execute (uuid nowCreated nowUpdated : string) (params : CreateEventParams)
    : M EventRepositoryImpl.Returned :=
  let event :=
    EventEntity uuid (p_objectId params) (p_type params) (p_comment params)
                (p_occurredAt params) (p_photoUri params)
                (Some PENDING) (Some 0%Z) None None None None
                nowCreated nowUpdated in
  EventRepositoryImpl.createEvent event.

End CreateEventUseCase.

(** * Vocabulary of the statements *)

Import EventRepositoryImpl.

(** ** Reading the world *)

(** The text under the events key. *)
Definition stored (w : World) : option Text :=
  storage w !! EventLocalDataSource.EVENTS_KEY.

(** The event objects of the stored collection as [getEvents] reads them: no
    events when the key is unset or its text is empty or not JSON; [None]
    when the text is JSON but no array. *)
Definition storedEvents (w : World) : option (list JsonEvent) :=
  match stored w with
  | Some (JsonArray l) => Some l
  | Some JsonOther => None
  | Some EmptyText | Some NotJson | None => Some []
  end.

(** The first event of a list with a given [id]
    ([events.find(e => e.id === id)]). *)
Definition lookupEvent {T} (i : string) (l : list (EventOf T)) : option (EventOf T) :=
  List.find (fun e => String.eqb (id e) i) l.

(** The stored event with a given [id]. *)
Definition storedEvent (i : string) (w : World) : option JsonEvent :=
  match storedEvents w with
  | Some l => lookupEvent i l
  | None => None
  end.

(** The connectivity oracle reports a connection. *)
Definition online (w : World) : Prop := netState w = Some true.

(** Every store call to come goes through. *)
Definition reliable (w : World) : Prop :=
  Forall (fun f => f = None) (faults w).

(** The outcome of the next store call: [Some msg] when it rejects. *)
Definition nextFault (w : World) : option string :=
  match faults w with
  | Some msg :: _ => Some msg
  | _ => None
  end.

(** The world after one store call was answered. *)
Definition spend (w : World) : World :=
  mkWorld (netState w) (storage w) (tail (faults w)) (console w).

(** The world after a text was written under the events key. *)
Definition write (t : Text) (w : World) : World :=
  mkWorld (netState w)
          (<[EventLocalDataSource.EVENTS_KEY := t]> (storage w))
          (faults w) (console w).

(** ** What the operations compute *)

(** What [saveEvent] does to the array: replace the first event with the
    same [id], or append. *)
Definition upsert {T} (event : EventOf T) (events : list (EventOf T)) : list (EventOf T) :=
  match findIndex (fun e => String.eqb (id e) (id event)) events with
  | Some index => <[index := event]> events
  | None => (events ++ [event])%list
  end.

(** [saveEvent] spelled out on the world: the read may reject, the text read
    may be no array, the write may reject; otherwise the array with the
    event upserted is written back. *)
Definition saveEvent_result (event : Event) (w : World) : Result unit * World :=
  match nextFault w with
  | Some msg => (Throw (Rejected msg), spend w)
  | None =>
      match storedEvents w with
      | None =>
          (Throw (TypeError "events.findIndex is not a function"), spend w)
      | Some l =>
          match nextFault (spend w) with
          | Some msg => (Throw (Rejected msg), spend (spend w))
          | None =>
              (Ok tt, write (JsonArray (upsert (toJSON event) l)) (spend (spend w)))
          end
      end
  end.

(** The copy [syncEvents] saves for an event it could confirm. *)
Definition syncedEvent (event : Event) : Event :=
  set_syncAttempts 0 (set_status SENT event).

(** The event as the handler of a failed attempt of [syncEvents] saves it. *)
Definition failedEvent (event : Event) (error : Exn) : Event :=
  let event := set_syncAttempts (syncAttempts event + 1) event in
  let event := set_lastSyncError (Some (message_or error "Sync failed")) event in
  if (MAX_RETRY_ATTEMPTS <=? syncAttempts event)%Z
  then set_status FAILED event
  else set_status PENDING event.

(** One iteration of the loop of [syncEvents] spelled out on the outcomes
    of its two saves. *)
Definition syncEvent_result (event : Event) (w : World) : Result unit * World :=
  if (MAX_RETRY_ATTEMPTS <=? syncAttempts event)%Z then
    print (ConsoleWarn ("Event " ++ id event ++ " exceeded max retry attempts") None) w
  else
    match EventLocalDataSource.saveEvent (syncedEvent event) w with
    | (Ok _, w1) =>
        print (ConsoleLog ("Event " ++ id event ++ " synced successfully")) w1
    | (Throw error, w1) =>
        match EventLocalDataSource.saveEvent (failedEvent event error) w1 with
        | (Ok _, w2) =>
            print (ConsoleWarn ("Failed to sync event "
                                  ++ id (failedEvent event error) ++ ":")
                               (Some error)) w2
        | (Throw error', w2) => (Throw error', w2)
        end
    end.

(** The events an online pass works on, from the snapshot of the stored
    array it took. *)
Definition snapshot (l : list JsonEvent) : list Event :=
  List.filter pendingOrFailed (map fromJSON l).

(** Successive passes of [syncEvents], each under its own connectivity
    report and outcomes of the store calls. *)
Fixpoint passes (envs : list (option bool * list (option string))) (w : World) : World :=
  match envs with
  | [] => w
  | (net, outcomes) :: later =>
      passes later (snd (syncEvents (mkWorld net (storage w) outcomes (console w))))
  end.

(** ** Properties of events and of the stored collection *)

(** Two events agree on everything but the three synchronisation fields
    ([status], [syncAttempts], [lastSyncError]). *)
Definition sameDetails {T} (a b : EventOf T) : Prop :=
  id a = id b /\ objectId a = objectId b /\ type a = type b /\
  comment a = comment b /\ occurredAt a = occurredAt b /\
  photoUri a = photoUri b /\ createdAt a = createdAt b /\
  updatedAt a = updatedAt b /\ serverId a = serverId b.

(** Every event of the stored collection satisfies [P]. *)
Definition allStored (P : JsonEvent -> Prop) (w : World) : Prop :=
  match storedEvents w with
  | Some l => Forall P l
  | None => True
  end.

(** The retry counter of every stored event is at most [MAX_RETRY_ATTEMPTS]. *)
Definition attemptsBounded (w : World) : Prop :=
  allStored (fun e => (syncAttempts e <= MAX_RETRY_ATTEMPTS)%Z) w.

(** The stored events have pairwise different [id]s. *)
Definition uniqueIds (w : World) : Prop :=
  match storedEvents w with
  | Some l => NoDup (map id l)
  | None => True
  end.

(** A Hoare triple over [M]: from a world satisfying [P], the computation
    ends (returning or throwing) in a result and a world satisfying [Q]. *)
Definition hoare {A} (P : World -> Prop) (c : M A)
    (Q : Result A -> World -> Prop) : Prop :=
  forall w, P w -> Q (fst (c w)) (snd (c w)).

(** ** Sample events and worlds *)

Definition sampleEvent (i : string) (s : EventStatus) (attempts : Z)
    (err : option string) : Event :=
  mkEvent i "obj_001" SERVICE "Oil change" (DateObject "2024-03-01T09:30:00.000Z")
          None s attempts err
          (DateObject "2024-03-01T09:31:00.000Z")
          (DateObject "2024-03-01T09:31:00.000Z") None.

(** The sample event of [id] "a" after the user edited its comment: the
    screen hands [updateEvent] the object it holds, timestamps included. *)
Definition editedEvent : Event :=
  mkEvent "a" "obj_001" SERVICE "Oil and filter change"
          (DateObject "2024-03-01T09:30:00.000Z") None PENDING 0 None
          (DateObject "2024-03-01T09:31:00.000Z")
          (DateObject "2024-03-01T09:31:00.000Z") None.

(** A world with the given connectivity report, text under the events key
    and outcomes of the store calls, and an empty console. *)
Definition sampleWorld (net : option bool) (text : option Text)
    (outcomes : list (option string)) : World :=
  mkWorld net
          (match text with
           | Some t => {[ EventLocalDataSource.EVENTS_KEY := t ]}
           | None => ∅
           end)
          outcomes [].

(** ** Further vocabulary *)

(** What [deleteEvent] of the data source does to the array: drop every
    event with the [id]. *)
Definition removeId {T} (i : string) (l : list (EventOf T)) : list (EventOf T) :=
  List.filter (fun e => negb (String.eqb (id e) i)) l.

(** An event as it comes back from the store: the timestamps it was saved
    with, as ISO strings. *)
Definition reloaded (e : Event) : Event :=
  mapTimestamps (fun t => IsoString (Timestamp_toJSON t)) e.

(** A stored event that an online pass of [syncEvents] attempts: pending or
    failed, with a retry counter under the maximum. *)
Definition eligible (j : JsonEvent) : bool :=
  pendingOrFailed (fromJSON j) && (syncAttempts j <? MAX_RETRY_ATTEMPTS)%Z.

(** A stored event after a pass in which every save goes through. *)
Definition reconcile (j : JsonEvent) : JsonEvent :=
  if eligible j then set_syncAttempts 0 (set_status SENT j) else j.

(** How a call of [createEvent] or [updateEvent] on [event] ends: having
    returned, with what it returned stored under the [id] of [event]; or
    having thrown, with the store as it was in [w]. *)
Definition storedOrUntouched (event : Event) (w : World)
    (outcome : Result Returned * World) : Prop :=
  match outcome with
  | (Ok r, w') =>
      id (returned r) = id event /\
      storedEvent (id event) w' = Some (toJSON (returned r))
  | (Throw _, w') => storage w' = storage w
  end.

(** The number of pending events of a list, as the slice counts them. *)
Definition pendingOf {T} (l : list (EventOf T)) : Z :=
  Z.of_nat (length (List.filter EventSlice.isPending l)).

(** The counter of the slice is the number of its pending events. *)
Definition countsPending (state : EventSlice.EventState) : Prop :=
  EventSlice.pendingCount state = pendingOf (EventSlice.events state).

(** A happening that reports a connection to the listener of
    [useAutoSync]. *)
Definition reportsOnline (h : AutoSync.Happening) : bool :=
  match h with
  | AutoSync.Report (Some true) => true
  | _ => false
  end.

(** A happening after which [isOnline] is [false]. *)
Definition setsOffline (h : AutoSync.Happening) : bool :=
  match h with
  | AutoSync.Report (Some true) | AutoSync.InitialCheck true => false
  | _ => true
  end.

Definition count {A} (p : A -> bool) (l : list A) : nat :=
  length (List.filter p l).

(** * Theorems *)

(** ** JSON and the upsert *)

Lemma toJSON_fromJSON (j : JsonEvent) : toJSON (fromJSON j) = j.
Proof. by destruct j. Qed.

Lemma map_toJSON_fromJSON (l : list JsonEvent) :
  map toJSON (map fromJSON l) = l.
Proof.
  induction l as [|j l IH]; simpl; [done|]. by rewrite toJSON_fromJSON, IH.
Qed.

(** What an event is after [JSON.stringify] and [JSON.parse]. *)
Lemma fromJSON_toJSON (e : Event) :
  fromJSON (toJSON e) = mapTimestamps (fun t => IsoString (Timestamp_toJSON t)) e.
Proof. reflexivity. Qed.

Lemma findIndex_map {A B} (f : A -> B) (p : B -> bool) (l : list A) :
  findIndex p (map f l) = findIndex (fun x => p (f x)) l.
Proof.
  induction l as [|x l IH]; simpl; [done|]. destruct (p (f x)); [done|].
  by rewrite IH.
Qed.

Lemma findIndex_ext {A} (p q : A -> bool) (l : list A) :
  (forall x, p x = q x) -> findIndex p l = findIndex q l.
Proof.
  intros Hpq. induction l as [|x l IH]; simpl; [done|].
  by rewrite Hpq, IH.
Qed.

Lemma upsert_nil {T} (e : EventOf T) : upsert e [] = [e].
Proof. reflexivity. Qed.

Lemma upsert_cons {T} (e x : EventOf T) (l : list (EventOf T)) :
  upsert e (x :: l) =
    if String.eqb (id x) (id e) then e :: l else x :: upsert e l.
Proof.
  unfold upsert. simpl. destruct (String.eqb (id x) (id e)); [done|].
  by destruct (findIndex _ l).
Qed.

(** A map that keeps the [id]s commutes with the upsert. *)
Lemma upsert_map {A B} (f : EventOf A -> EventOf B) (e : EventOf A)
    (l : list (EventOf A)) :
  (forall x, id (f x) = id x) ->
  map f (upsert e l) = upsert (f e) (map f l).
Proof.
  intros Hid. induction l as [|x l IH]; [done|].
  simpl map. rewrite !upsert_cons, !Hid.
  destruct (String.eqb (id x) (id e)); simpl; [done|]. by rewrite IH.
Qed.

(** After an upsert the event is the first of its [id], and the first
    events of the other [id]s are the ones they were. *)
Lemma lookupEvent_upsert {T} (i : string) (e : EventOf T) (l : list (EventOf T)) :
  lookupEvent i (upsert e l) =
    if String.eqb (id e) i then Some e else lookupEvent i l.
Proof.
  induction l as [|x l IH].
  - rewrite upsert_nil. unfold lookupEvent. simpl.
    by destruct (String.eqb (id e) i).
  - rewrite upsert_cons.
    destruct (String.eqb (id x) (id e)) eqn:Hxe.
    + apply String.eqb_eq in Hxe. unfold lookupEvent. simpl. rewrite Hxe.
      by destruct (String.eqb (id e) i).
    + unfold lookupEvent in *. simpl. rewrite IH.
      destruct (String.eqb (id x) i) eqn:Hxi; [|done].
      apply String.eqb_eq in Hxi. subst i. by rewrite String.eqb_sym, Hxe.
Qed.

Lemma lookupEvent_map {A B} (f : EventOf A -> EventOf B) (i : string)
    (l : list (EventOf A)) :
  (forall x, id (f x) = id x) ->
  lookupEvent i (map f l) = option_map f (lookupEvent i l).
Proof.
  intros Hid. unfold lookupEvent. induction l as [|x l IH]; simpl; [done|].
  rewrite Hid. by destruct (String.eqb (id x) i).
Qed.

(** With pairwise different [id]s, the first event of an [id] is the only
    one. *)
Lemma lookupEvent_unique {T} (i : string) (j x : EventOf T) (l : list (EventOf T)) :
  NoDup (map id l) -> lookupEvent i l = Some j -> In x l -> id x = i -> x = j.
Proof.
  unfold lookupEvent. induction l as [|y l IH]; simpl; [done|].
  intros Hnd Hfind Hin Hid. apply NoDup_cons in Hnd as [Hy Hnd].
  destruct (String.eqb (id y) i) eqn:Hyi.
  - apply String.eqb_eq in Hyi. injection Hfind as <-.
    destruct Hin as [->|Hin]; [done|]. exfalso. apply Hy.
    apply list_elem_of_In. rewrite Hyi, <- Hid. by apply in_map.
  - destruct Hin as [->|Hin]; [|by apply IH].
    apply String.eqb_neq in Hyi. done.
Qed.

Lemma ids_upsert {T} (i : string) (e : EventOf T) (l : list (EventOf T)) :
  In i (map id (upsert e l)) <-> i = id e \/ In i (map id l).
Proof.
  induction l as [|x l IH].
  - rewrite upsert_nil. simpl. intuition congruence.
  - rewrite upsert_cons.
    destruct (String.eqb (id x) (id e)) eqn:Hxe; simpl.
    + apply String.eqb_eq in Hxe. rewrite Hxe. intuition congruence.
    + rewrite IH. tauto.
Qed.

(** The upsert keeps the [id]s pairwise different. *)
Lemma NoDup_ids_upsert {T} (e : EventOf T) (l : list (EventOf T)) :
  NoDup (map id l) -> NoDup (map id (upsert e l)).
Proof.
  induction l as [|x l IH]; intros Hl.
  - rewrite upsert_nil. simpl. apply NoDup_singleton.
  - rewrite upsert_cons. simpl in Hl. apply NoDup_cons in Hl as [Hx Hl].
    destruct (String.eqb (id x) (id e)) eqn:Hxe; simpl.
    + apply String.eqb_eq in Hxe. rewrite <- Hxe. by apply NoDup_cons.
    + apply String.eqb_neq in Hxe. apply NoDup_cons. split; [|by apply IH].
      rewrite list_elem_of_In, ids_upsert, <- list_elem_of_In.
      intros [H|H]; [by symmetry in H | done].
Qed.

Lemma Forall_upsert {T} (P : EventOf T -> Prop) (e : EventOf T)
    (l : list (EventOf T)) :
  P e -> Forall P l -> Forall P (upsert e l).
Proof.
  intros He Hl. induction Hl as [|x l Hx Hl IH].
  - rewrite upsert_nil. by constructor.
  - rewrite upsert_cons. destruct (String.eqb (id x) (id e)); by constructor.
Qed.

(** ** The data source, spelled out *)

Lemma storedEvents_spend (w : World) : storedEvents (spend w) = storedEvents w.
Proof. reflexivity. Qed.

Lemma stored_write (t : Text) (w : World) : stored (write t w) = Some t.
Proof. unfold stored, write. simpl. apply lookup_insert_eq. Qed.

Lemma storedEvents_write (l : list JsonEvent) (w : World) :
  storedEvents (write (JsonArray l) w) = Some l.
Proof. unfold storedEvents. by rewrite stored_write. Qed.

Lemma storedEvents_storage (w w' : World) :
  storage w' = storage w -> storedEvents w' = storedEvents w.
Proof. unfold storedEvents, stored. by intros ->. Qed.

Lemma storedEvent_storage (i : string) (w w' : World) :
  storage w' = storage w -> storedEvent i w' = storedEvent i w.
Proof. unfold storedEvent. intros H. by rewrite (storedEvents_storage _ _ H). Qed.

Lemma reliable_nextFault (w : World) : reliable w -> nextFault w = None.
Proof.
  unfold reliable, nextFault. destruct (faults w) as [|[msg|] later]; [done| |done].
  intros H. by apply Forall_cons in H as [? _].
Qed.

Lemma reliable_spend (w : World) : reliable w -> reliable (spend w).
Proof.
  unfold reliable, spend. simpl. destruct (faults w) as [|f later]; [done|].
  intros H. by apply Forall_cons in H as [_ ?].
Qed.

Lemma reliable_write (t : Text) (w : World) : reliable w -> reliable (write t w).
Proof. done. Qed.

Lemma call_result (w : World) :
  IDatabase.call w =
    (match nextFault w with
     | Some msg => Throw (Rejected msg)
     | None => Ok tt
     end, spend w).
Proof.
  unfold IDatabase.call, nextFault, spend.
  destruct w as [net st fs out]; simpl. by destruct fs as [|[msg|] later].
Qed.

Lemma getEvents_result (w : World) :
  EventLocalDataSource.getEvents w =
    (match nextFault w with
     | Some msg => Throw (Rejected msg)
     | None =>
         Ok (match storedEvents w with
             | Some l => Events (map fromJSON l)
             | None => NotAnArray
             end)
     end, spend w).
Proof.
  unfold EventLocalDataSource.getEvents, IDatabase.getItem, bind.
  rewrite call_result. destruct (nextFault w) as [msg|]; [done|].
  unfold storedEvents, stored. simpl.
  destruct (storage w !! EventLocalDataSource.EVENTS_KEY) as [[| | |l]|]; done.
Qed.

Lemma saveEvents_result (events : list Event) (w : World) :
  EventLocalDataSource.saveEvents events w =
    match nextFault w with
    | Some msg => (Throw (Rejected msg), spend w)
    | None => (Ok tt, write (JSON_stringify events) (spend w))
    end.
Proof.
  unfold EventLocalDataSource.saveEvents, IDatabase.setItem, bind.
  rewrite call_result. by destruct (nextFault w).
Qed.

Lemma saveEvent_spelled_out (event : Event) (w : World) :
  EventLocalDataSource.saveEvent event w = saveEvent_result event w.
Proof.
  unfold EventLocalDataSource.saveEvent, saveEvent_result, bind.
  rewrite getEvents_result. destruct (nextFault w) as [msg|]; [done|].
  destruct (storedEvents w) as [l|]; simpl; [|done].
  rewrite saveEvents_result.
  destruct (nextFault (spend w)) as [msg|]; [done|].
  unfold JSON_stringify.
  change (match findIndex _ _ with Some i => _ | None => _ end)
    with (upsert event (map fromJSON l)).
  rewrite (upsert_map toJSON) by reflexivity.
  by rewrite map_toJSON_fromJSON.
Qed.

Lemma getEventById_result (i : string) (w : World) :
  getEventById i w =
    (match nextFault w with
     | Some msg => Throw (Rejected msg)
     | None =>
         match storedEvents w with
         | Some l => Ok (option_map fromJSON (lookupEvent i l))
         | None => Throw (TypeError "events.find is not a function")
         end
     end, spend w).
Proof.
  unfold getEventById, EventLocalDataSource.getEventById, bind.
  rewrite getEvents_result. destruct (nextFault w); [done|].
  destruct (storedEvents w) as [l|]; simpl; [|done].
  unfold ret. do 2 f_equal. by apply (lookupEvent_map fromJSON i l).
Qed.

(** When the store calls go through and the stored text is not some JSON
    value other than an array, [saveEvent] returns and the collection holds
    the event. *)
Lemma saveEvent_reliable (e : Event) (w : World) :
  reliable w ->
  stored w <> Some JsonOther ->
  exists l,
    storedEvents w = Some l /\
    EventLocalDataSource.saveEvent e w =
      (Ok tt, write (JsonArray (upsert (toJSON e) l)) (spend (spend w))).
Proof.
  intros Hrel Hst. rewrite saveEvent_spelled_out. unfold saveEvent_result.
  rewrite (reliable_nextFault w Hrel).
  rewrite (reliable_nextFault (spend w) (reliable_spend w Hrel)).
  unfold storedEvents.
  destruct (stored w) as [[| | |l]|]; try congruence; eauto.
Qed.

(** A saved event is the stored event of its [id]. *)
Lemma saveEvent_ok_stored (e : Event) (w : World) :
  fst (EventLocalDataSource.saveEvent e w) = Ok tt ->
  storedEvent (id e) (snd (EventLocalDataSource.saveEvent e w)) = Some (toJSON e).
Proof.
  rewrite saveEvent_spelled_out. unfold saveEvent_result.
  destruct (nextFault w); [done|].
  destruct (storedEvents w) as [l|]; [|done].
  destruct (nextFault (spend w)); [done|]. simpl. intros _.
  unfold storedEvent. rewrite storedEvents_write, lookupEvent_upsert. simpl.
  by rewrite String.eqb_refl.
Qed.

Lemma syncEvent_spelled_out (e : Event) (w : World) :
  syncEvent e w = syncEvent_result e w.
Proof.
  unfold syncEvent, syncEvent_result.
  destruct (MAX_RETRY_ATTEMPTS <=? syncAttempts e)%Z; [reflexivity|].
  unfold try_catch, bind.
  change (set_syncAttempts 0 (set_status SENT e)) with (syncedEvent e).
  destruct (EventLocalDataSource.saveEvent (syncedEvent e) w) as [[u|err] w1];
    [reflexivity|].
  change (EventLocalDataSource.saveEvent _ w1)
    with (EventLocalDataSource.saveEvent (failedEvent e err) w1).
  destruct (EventLocalDataSource.saveEvent (failedEvent e err) w1) as [[u|err'] w2];
    reflexivity.
Qed.

(** ** Hoare rules *)

Section Rules.

Context {A B : Type}.
Implicit Types (P : World -> Prop) (w : World).

Lemma hoare_ret (a : A) P (Q : Result A -> World -> Prop) :
  (forall w, P w -> Q (Ok a) w) -> hoare P (ret a) Q.
Proof. intros H w Hw. by apply H. Qed.

Lemma hoare_bind (c : M A) (k : A -> M B) P
    (R : Result A -> World -> Prop) (Q : Result B -> World -> Prop) :
  hoare P c R ->
  (forall a, hoare (R (Ok a)) (k a) Q) ->
  (forall e w, R (Throw e) w -> Q (Throw e) w) ->
  hoare P (bind c k) Q.
Proof.
  intros Hc Hk He w Hw. specialize (Hc w Hw). unfold bind.
  destruct (c w) as [[a|e] w']; simpl in *.
  - by apply Hk.
  - by apply He.
Qed.

Lemma hoare_try_catch (body : M A) (handler : Exn -> M A) P
    (R Q : Result A -> World -> Prop) :
  hoare P body R ->
  (forall a w, R (Ok a) w -> Q (Ok a) w) ->
  (forall e, hoare (R (Throw e)) (handler e) Q) ->
  hoare P (try_catch body handler) Q.
Proof.
  intros Hb Hok Hh w Hw. specialize (Hb w Hw). unfold try_catch.
  destruct (body w) as [[a|e] w']; simpl in *.
  - by apply Hok.
  - by apply Hh.
Qed.

Lemma hoare_consequence (c : M A) P P' (Q Q' : Result A -> World -> Prop) :
  hoare P' c Q' ->
  (forall w, P w -> P' w) ->
  (forall r w, Q' r w -> Q r w) ->
  hoare P c Q.
Proof. intros Hc HP HQ w Hw. apply HQ, Hc, HP, Hw. Qed.

(** A fact that follows from the precondition may be assumed. *)
Lemma hoare_assume (c : M A) P (F : Prop) (Q : Result A -> World -> Prop) :
  (forall w, P w -> F) ->
  (F -> hoare P c Q) ->
  hoare P c Q.
Proof. intros HF Hc w Hw. by apply (Hc (HF w Hw)). Qed.

End Rules.

(** The rules for a property [I] of the world that is to hold however the
    computation ends, and that only the store can change. *)
Section Invariant.

Variable I : World -> Prop.
Hypothesis I_storage : forall w w', storage w' = storage w -> I w -> I w'.

Lemma inv_ret {A} (a : A) : hoare I (ret a) (fun _ => I).
Proof. by apply hoare_ret. Qed.

Lemma inv_throw {A} (e : Exn) : hoare I (throw e : M A) (fun _ => I).
Proof. intros w Hw. exact Hw. Qed.

Lemma inv_bind {A B} (c : M A) (k : A -> M B) :
  hoare I c (fun _ => I) ->
  (forall a, hoare I (k a) (fun _ => I)) ->
  hoare I (bind c k) (fun _ => I).
Proof.
  intros Hc Hk. apply (hoare_bind _ _ I (fun _ => I)); [exact Hc | exact Hk |].
  intros e w Hw. exact Hw.
Qed.

Lemma inv_try_catch {A} (body : M A) (handler : Exn -> M A) :
  hoare I body (fun _ => I) ->
  (forall e, hoare I (handler e) (fun _ => I)) ->
  hoare I (try_catch body handler) (fun _ => I).
Proof.
  intros Hb Hh. apply (hoare_try_catch _ _ I (fun _ => I)); [exact Hb | | exact Hh].
  intros a w Hw. exact Hw.
Qed.

(** The loop rule: what every iteration keeps, whether it returns or
    throws, holds when the loop is left. *)
Lemma inv_forEach {A} (body : A -> M unit) (E : A -> Prop) (l : list A) :
  (forall x, E x -> hoare I (body x) (fun _ => I)) ->
  Forall E l ->
  hoare I (forEach body l) (fun _ => I).
Proof.
  intros Hbody Hl. induction Hl as [|x rest Hx Hl IH]; simpl.
  - apply inv_ret.
  - apply inv_bind; [by apply Hbody | intros u; apply IH].
Qed.

Lemma inv_print (line : LogLine) : hoare I (print line) (fun _ => I).
Proof. intros w Hw. apply (I_storage w); [reflexivity | exact Hw]. Qed.

Lemma inv_isConnected : hoare I NetworkInfo.isConnected (fun _ => I).
Proof. intros w Hw. exact Hw. Qed.

(** The events [getEvents] returns are the stored ones. *)
Lemma inv_getEvents :
  hoare I EventLocalDataSource.getEvents
    (fun r w => I w /\
                forall l, r = Ok (Events l) ->
                          exists l0, storedEvents w = Some l0 /\ l = map fromJSON l0).
Proof.
  intros w Hw. rewrite getEvents_result. simpl.
  split; [by apply (I_storage w)|]. intros l Hl. destruct (nextFault w); [done|].
  rewrite storedEvents_spend. destruct (storedEvents w) as [l0|]; [|done].
  injection Hl as <-. by exists l0.
Qed.

End Invariant.

(** ** Invariants of the stored collection *)

Lemma allStored_storage (P : JsonEvent -> Prop) (w w' : World) :
  storage w' = storage w -> allStored P w -> allStored P w'.
Proof. unfold allStored. intros H. by rewrite (storedEvents_storage _ _ H). Qed.

Lemma uniqueIds_storage (w w' : World) :
  storage w' = storage w -> uniqueIds w -> uniqueIds w'.
Proof. unfold uniqueIds. intros H. by rewrite (storedEvents_storage _ _ H). Qed.

(** [saveEvent] keeps a property of all stored events that the saved event
    has, whatever the store calls do. *)
Lemma saveEvent_allStored (P : JsonEvent -> Prop) (e : Event) :
  P (toJSON e) ->
  hoare (allStored P) (EventLocalDataSource.saveEvent e) (fun _ => allStored P).
Proof.
  intros He w Hw. rewrite saveEvent_spelled_out. unfold saveEvent_result.
  destruct (nextFault w); [exact Hw|].
  unfold allStored in Hw.
  destruct (storedEvents w) as [l|] eqn:Hl;
    [|by unfold allStored; simpl; rewrite storedEvents_spend, Hl].
  destruct (nextFault (spend w)); simpl.
  - unfold allStored. by rewrite !storedEvents_spend, Hl.
  - unfold allStored. rewrite storedEvents_write. by apply Forall_upsert.
Qed.

Lemma saveEvents_allStored (P : JsonEvent -> Prop) (events : list Event) :
  Forall (fun e => P (toJSON e)) events ->
  hoare (allStored P) (EventLocalDataSource.saveEvents events)
    (fun _ => allStored P).
Proof.
  intros He w Hw. rewrite saveEvents_result.
  destruct (nextFault w); simpl; [exact Hw|].
  unfold allStored, JSON_stringify. rewrite storedEvents_write.
  by apply Forall_map.
Qed.

Lemma deleteEvent_allStored (P : JsonEvent -> Prop) (i : string) :
  hoare (allStored P) (EventLocalDataSource.deleteEvent i) (fun _ => allStored P).
Proof.
  unfold EventLocalDataSource.deleteEvent.
  eapply hoare_bind;
    [apply (inv_getEvents _ (allStored_storage P)) | | by intros e w [Hw _]].
  intros [l|] w [Hw Hl]; [|exact Hw].
  destruct (Hl l eq_refl) as (l0 & Hl0 & ->).
  change (allStored P (snd (EventLocalDataSource.saveEvents
    (List.filter (fun e => negb (String.eqb (id e) i)) (map fromJSON l0)) w))).
  apply saveEvents_allStored; [|exact Hw].
  unfold allStored in Hw. rewrite Hl0 in Hw.
  apply Forall_forall. intros e He.
  apply list_elem_of_In, filter_In in He as [He _].
  apply in_map_iff in He as (j & <- & Hj). rewrite toJSON_fromJSON.
  rewrite Forall_forall in Hw. by apply Hw, list_elem_of_In.
Qed.

Lemma saveEvent_uniqueIds (e : Event) :
  hoare uniqueIds (EventLocalDataSource.saveEvent e) (fun _ => uniqueIds).
Proof.
  intros w Hw. rewrite saveEvent_spelled_out. unfold saveEvent_result.
  destruct (nextFault w); [exact Hw|].
  unfold uniqueIds in Hw.
  destruct (storedEvents w) as [l|] eqn:Hl;
    [|by unfold uniqueIds; simpl; rewrite storedEvents_spend, Hl].
  destruct (nextFault (spend w)); simpl.
  - unfold uniqueIds. by rewrite !storedEvents_spend, Hl.
  - unfold uniqueIds. rewrite storedEvents_write. by apply NoDup_ids_upsert.
Qed.

(** Saving an event leaves the stored events of other [id]s as they were,
    whatever the store calls do. *)
Lemma saveEvent_frame (i : string) (x : option JsonEvent) (e : Event) :
  id e <> i ->
  hoare (fun w => storedEvent i w = x) (EventLocalDataSource.saveEvent e)
        (fun _ w => storedEvent i w = x).
Proof.
  intros Hne w Hw. rewrite saveEvent_spelled_out. unfold saveEvent_result.
  destruct (nextFault w); [exact Hw|].
  destruct (storedEvents w) as [l|] eqn:Hl; [|exact Hw].
  destruct (nextFault (spend w)); [exact Hw|]. simpl.
  unfold storedEvent in *. rewrite storedEvents_write. rewrite Hl in Hw.
  rewrite lookupEvent_upsert. simpl.
  apply String.eqb_neq in Hne. by rewrite Hne.
Qed.

(** ** Operations without a connection *)

(** C3: while the connectivity oracle does not report a connection,
    [syncEvents] returns normally and touches neither the store nor the
    outcomes of the store calls to come: it only prints one line.  So the
    stored text, hence every field of every stored event, is what it was. *)
Theorem syncEvents_offline_noop (w : World) :
  netState w <> Some true ->
  syncEvents w =
    (Ok tt,
     mkWorld (netState w) (storage w) (faults w)
       (ConsoleLog "No network connection. Sync will retry when online."
          :: console w))
  /\ stored (snd (syncEvents w)) = stored w
  /\ forall i, storedEvent i (snd (syncEvents w)) = storedEvent i w.
Proof.
  intros Hoff.
  assert (Hrun : syncEvents w =
    (Ok tt,
     mkWorld (netState w) (storage w) (faults w)
       (ConsoleLog "No network connection. Sync will retry when online."
          :: console w))).
  { destruct w as [net st fs out]. simpl in *.
    unfold syncEvents, bind, NetworkInfo.isConnected. simpl.
    destruct net as [[|]|]; simpl; [congruence | reflexivity..]. }
  rewrite Hrun. split; [reflexivity|]. split; [reflexivity|].
  intros i. reflexivity.
Qed.

Lemma syncEvents_offline_noop_witness :
  let w := sampleWorld None
             (Some (JSON_stringify [sampleEvent "a" PENDING 1 (Some "timeout");
                                    sampleEvent "b" FAILED 3 (Some "timeout")]))
             [Some "disk full"] in
  fst (syncEvents w) = Ok tt /\
  stored (snd (syncEvents w)) = stored w /\
  faults (snd (syncEvents w)) = faults w /\
  storedEvent "a" (snd (syncEvents w)) = storedEvent "a" w.
Proof.
  intros w.
  assert (Hoff : netState w <> Some true) by discriminate.
  destruct (syncEvents_offline_noop w Hoff) as (Hrun & Hst & Hev).
  split; [by rewrite Hrun|]. split; [exact Hst|].
  split; [by rewrite Hrun|]. apply Hev.
Defined.

(** C9: while the connectivity oracle does not report a connection,
    [deleteEvent] returns normally and leaves the world, the stored
    collection included, exactly as it was: the event is not removed. *)
Theorem deleteEvent_offline_noop (i : string) (w : World) :
  netState w <> Some true ->
  deleteEvent i w = (Ok tt, w).
Proof.
  intros Hoff. unfold deleteEvent, bind, NetworkInfo.isConnected.
  destruct (netState w) as [[|]|]; simpl; [congruence | reflexivity..].
Qed.

Lemma deleteEvent_offline_noop_witness :
  let w := sampleWorld (Some false)
             (Some (JSON_stringify [sampleEvent "a" SENT 0 None])) [] in
  deleteEvent "a" w = (Ok tt, w) /\
  storedEvent "a" (snd (deleteEvent "a" w)) = Some (toJSON (sampleEvent "a" SENT 0 None)).
Proof.
  intros w.
  assert (Hoff : netState w <> Some true) by discriminate.
  pose proof (deleteEvent_offline_noop "a" w Hoff) as Hrun.
  split; [exact Hrun|]. rewrite Hrun. reflexivity.
Defined.

(** C4: offline, when the store calls go through and the stored text can be
    read as a collection, [createEvent] returns the event with status
    PENDING and a zero retry counter, the collection holds it under its
    [id], and [getEventById] with that [id] returns the stored event (what
    JSON keeps of it). *)
Theorem createEvent_offline_pending (e : Event) (w : World) :
  netState w <> Some true ->
  reliable w ->
  stored w <> Some JsonOther ->
  exists r w',
    createEvent e w = (Ok r, w') /\
    r = mkReturned (set_syncAttempts 0 (set_status PENDING e))
                   (set_syncAttempts 0 (set_status PENDING e)) /\
    status (returned r) = PENDING /\
    syncAttempts (returned r) = 0%Z /\
    id (returned r) = id e /\
    storedEvent (id (returned r)) w' = Some (toJSON (returned r)) /\
    fst (getEventById (id (returned r)) w')
      = Ok (Some (fromJSON (toJSON (returned r)))).
Proof.
  intros Hoff Hrel Hst.
  set (e' := set_syncAttempts 0 (set_status PENDING e)).
  destruct (saveEvent_reliable e' w Hrel Hst) as (l & Hl & Hsave).
  exists (mkReturned e' e'), (write (JsonArray (upsert (toJSON e') l)) (spend (spend w))).
  assert (Hlook : lookupEvent (id e) (upsert (toJSON e') l) = Some (toJSON e')).
  { rewrite lookupEvent_upsert. simpl. by rewrite String.eqb_refl. }
  split.
  { unfold createEvent, bind, NetworkInfo.isConnected.
    destruct (netState w) as [[|]|] eqn:Hnet; simpl; try congruence;
      fold e'; by rewrite Hsave. }
  repeat split.
  - unfold storedEvent. rewrite storedEvents_write. exact Hlook.
  - rewrite getEventById_result.
    rewrite reliable_nextFault
      by (apply reliable_write, reliable_spend, reliable_spend, Hrel).
    rewrite storedEvents_write. simpl. simpl in Hlook. by rewrite Hlook.
Qed.

Lemma createEvent_offline_pending_witness :
  let e := sampleEvent "n" SENT 7 (Some "stale") in
  let w := sampleWorld (Some false)
             (Some (JSON_stringify [sampleEvent "a" SENT 0 None])) [None; None] in
  exists r w',
    createEvent e w = (Ok r, w') /\
    status (returned r) = PENDING /\
    syncAttempts (returned r) = 0%Z /\
    fst (getEventById "n" w') = Ok (Some (fromJSON (toJSON (returned r)))).
Proof.
  intros e w.
  assert (Hoff : netState w <> Some true) by discriminate.
  assert (Hrel : reliable w) by (repeat constructor).
  assert (Hst : stored w <> Some JsonOther) by discriminate.
  destruct (createEvent_offline_pending e w Hoff Hrel Hst)
    as (r & w' & Hrun & _ & Hstatus & Hattempts & Hid & _ & Hget).
  exists r, w'. split; [exact Hrun|]. split; [exact Hstatus|].
  split; [exact Hattempts|]. simpl in Hid. by rewrite <- Hid.
Defined.

(** ** [syncEvents] returns *)

(** A [try] whose handler cannot throw does not throw. *)
Lemma try_catch_total (body : M unit) (handler : Exn -> M unit) (w : World) :
  (forall e w', fst (handler e w') = Ok tt) ->
  fst (try_catch body handler w) = Ok tt.
Proof.
  intros Hh. unfold try_catch.
  destruct (body w) as [[[]|e] w']; [reflexivity | apply Hh].
Qed.

(** C10: [syncEvents] never throws: whatever the connectivity report, the
    stored text (absent, empty, not JSON, not an array, or an array) and the
    outcomes of the store calls, the call returns normally. *)
Theorem syncEvents_never_throws (w : World) :
  fst (syncEvents w) = Ok tt.
Proof.
  unfold syncEvents, bind, NetworkInfo.isConnected.
  destruct (default false (netState w)); simpl; [|reflexivity].
  apply try_catch_total. reflexivity.
Qed.

(** What the failures that [syncEvents] catches look like from outside: a
    rejected enumeration and a stored text that is no array each end in one
    line on the console and an untouched store; a text that is no JSON is
    read as an empty collection.  The other operations do throw: online,
    [createEvent] on a store that rejects every call. *)
Example syncEvents_enumeration_fails :
  syncEvents (sampleWorld (Some true) (Some (JSON_stringify [sampleEvent "a" PENDING 0 None]))
                          [Some "disk error"])
  = (Ok tt,
     mkWorld (Some true)
             {[ EventLocalDataSource.EVENTS_KEY :=
                  JSON_stringify [sampleEvent "a" PENDING 0 None] ]}
             []
             [ConsoleError "Sync process failed:" (Rejected "disk error")]).
Proof. reflexivity. Qed.

Example syncEvents_text_is_no_array :
  syncEvents (sampleWorld (Some true) (Some JsonOther) [])
  = (Ok tt,
     mkWorld (Some true) {[ EventLocalDataSource.EVENTS_KEY := JsonOther ]} []
             [ConsoleError "Sync process failed:"
                (TypeError "localEvents.filter is not a function")]).
Proof. reflexivity. Qed.

Example syncEvents_text_is_no_json :
  syncEvents (sampleWorld (Some true) (Some NotJson) [])
  = (Ok tt, sampleWorld (Some true) (Some NotJson) []).
Proof. reflexivity. Qed.

Example createEvent_may_throw :
  fst (createEvent (sampleEvent "a" PENDING 0 None)
                   (sampleWorld (Some true) None [Some "disk error"; Some "disk error"]))
  = Throw (Rejected "disk error").
Proof. reflexivity. Qed.

(** ** The bound on the retry counter *)

(** [save ;; rest], where the save is of an event within the bound and the
    rest returns or prints. *)
Ltac saves_within_bound :=
  apply inv_bind;
  [ apply saveEvent_allStored; simpl; unfold MAX_RETRY_ATTEMPTS in *; lia
  | intros; first [ apply inv_ret | apply inv_print, allStored_storage ] ].

(** The body of the reconciliation loop keeps the bound: a retry only
    happens below the maximum, and then counts one more. *)
Lemma syncEvent_attemptsBounded (e : Event) :
  hoare attemptsBounded (syncEvent e) (fun _ => attemptsBounded).
Proof.
  unfold syncEvent, attemptsBounded.
  destruct (MAX_RETRY_ATTEMPTS <=? syncAttempts e)%Z eqn:Hmax.
  - apply inv_print, allStored_storage.
  - apply Z.leb_gt in Hmax. apply inv_try_catch.
    + saves_within_bound.
    + intros err. apply inv_bind; [|intros; apply inv_print, allStored_storage].
      apply saveEvent_allStored.
      destruct (MAX_RETRY_ATTEMPTS <=? _)%Z; simpl; lia.
Qed.

Lemma syncEvents_attemptsBounded :
  hoare attemptsBounded syncEvents (fun _ => attemptsBounded).
Proof.
  unfold syncEvents, attemptsBounded.
  apply inv_bind; [apply inv_isConnected|]. intros [|]; simpl;
    [|apply inv_print, allStored_storage].
  apply inv_try_catch; [|intros err; apply inv_print, allStored_storage].
  apply inv_bind.
  - eapply hoare_consequence;
      [apply inv_getEvents, allStored_storage | done | by intros r w [Hw _]].
  - intros [l|]; [|apply inv_throw].
    apply inv_bind; [apply inv_ret|]. intros l'.
    apply (inv_forEach _ _ (fun _ => True)).
    + intros e _. apply syncEvent_attemptsBounded.
    + by apply Forall_forall.
Qed.

Lemma createEvent_attemptsBounded (e : Event) :
  hoare attemptsBounded (createEvent e) (fun _ => attemptsBounded).
Proof.
  unfold createEvent, attemptsBounded.
  apply inv_bind; [apply inv_isConnected|]. intros [|].
  - apply inv_try_catch; [|intros err]; saves_within_bound.
  - saves_within_bound.
Qed.

(** [updateEvent] keeps the bound when it runs online (a success stores a
    zero counter, a failure caps it with [Math.min]) or when the event it is
    given is within the bound (offline the counter is stored as given). *)
Lemma updateEvent_attemptsBounded (e : Event) :
  hoare (fun w => attemptsBounded w /\
                  (online w \/ (syncAttempts e <= MAX_RETRY_ATTEMPTS)%Z))
        (updateEvent e) (fun _ => attemptsBounded).
Proof.
  unfold updateEvent.
  apply (hoare_bind _ _ _
           (fun r w => attemptsBounded w /\
                       (r = Ok true \/ (syncAttempts e <= MAX_RETRY_ATTEMPTS)%Z))).
  - intros w [Hw He]. split; [exact Hw|]. simpl.
    destruct He as [Hon|Hb]; [left | by right].
    unfold online in Hon. by rewrite Hon.
  - intros [|].
    + apply (hoare_consequence _ _ attemptsBounded _ (fun _ => attemptsBounded));
        [|by intros w [Hw _] | done].
      unfold attemptsBounded. apply inv_try_catch; [saves_within_bound|].
      intros err. apply inv_bind; [apply inv_print, allStored_storage|].
      intros _. saves_within_bound.
    + apply (hoare_assume _ _ (syncAttempts e <= MAX_RETRY_ATTEMPTS)%Z).
      { intros w [_ [H|H]]; [discriminate | exact H]. }
      intros Hb.
      apply (hoare_consequence _ _ attemptsBounded _ (fun _ => attemptsBounded));
        [|by intros w [Hw _] | done].
      unfold attemptsBounded. saves_within_bound.
  - by intros err w [Hw _].
Qed.

Lemma deleteEvent_attemptsBounded (i : string) :
  hoare attemptsBounded (deleteEvent i) (fun _ => attemptsBounded).
Proof.
  unfold deleteEvent, attemptsBounded.
  apply inv_bind; [apply inv_isConnected|]. intros [|]; [|apply inv_ret].
  apply inv_try_catch; [apply deleteEvent_allStored|].
  intros err. apply inv_print, allStored_storage.
Qed.

(** C5, as amended: the bound [syncAttempts <= MAX_RETRY_ATTEMPTS] on every
    stored event is kept by [createEvent], [deleteEvent] and [syncEvents]
    for every argument, connectivity report and outcome of the store calls,
    and by [updateEvent] whenever the oracle reports a connection or the
    event it is given has a counter within the bound. *)
Theorem attemptsBounded_preserved (w : World) :
  attemptsBounded w ->
  (forall e, attemptsBounded (snd (createEvent e w))) /\
  (forall e, online w \/ (syncAttempts e <= MAX_RETRY_ATTEMPTS)%Z ->
             attemptsBounded (snd (updateEvent e w))) /\
  (forall i, attemptsBounded (snd (deleteEvent i w))) /\
  attemptsBounded (snd (syncEvents w)).
Proof.
  intros Hw. repeat split.
  - intros e. by apply createEvent_attemptsBounded.
  - intros e He. by apply updateEvent_attemptsBounded.
  - intros i. by apply deleteEvent_attemptsBounded.
  - by apply syncEvents_attemptsBounded.
Qed.

Lemma attemptsBounded_preserved_witness :
  let w := sampleWorld (Some true)
             (Some (JSON_stringify [sampleEvent "a" PENDING 2 None;
                                    sampleEvent "b" FAILED 3 (Some "timeout")]))
             [None; Some "disk full"] in
  let w_off := sampleWorld (Some false) (Some (JSON_stringify [])) [] in
  attemptsBounded w /\
  attemptsBounded (snd (createEvent (sampleEvent "c" PENDING 0 None) w)) /\
  attemptsBounded (snd (updateEvent (sampleEvent "a" PENDING 7 None) w)) /\
  attemptsBounded (snd (deleteEvent "b" w)) /\
  attemptsBounded (snd (syncEvents w)) /\
  attemptsBounded (snd (updateEvent (sampleEvent "a" PENDING 3 None) w_off)).
Proof.
  intros w w_off.
  assert (Hw : attemptsBounded w).
  { unfold attemptsBounded, allStored. simpl.
    repeat constructor; simpl; unfold MAX_RETRY_ATTEMPTS; lia. }
  assert (Hoff : attemptsBounded w_off).
  { unfold attemptsBounded, allStored. simpl. constructor. }
  destruct (attemptsBounded_preserved w Hw) as (Hc & Hu & Hd & Hs).
  destruct (attemptsBounded_preserved w_off Hoff) as (_ & Hu' & _ & _).
  split; [exact Hw|]. split; [apply Hc|].
  split; [apply Hu; left; reflexivity|].
  split; [apply Hd|]. split; [exact Hs|].
  apply Hu'. right. simpl. unfold MAX_RETRY_ATTEMPTS. lia.
Defined.

(** C5 as stated fails: offline, [updateEvent] stores the event with the
    counter it was given, here 5, in a collection that was within the
    bound. *)
Lemma updateEvent_offline_breaks_bound :
  let w := sampleWorld (Some false) None [] in
  attemptsBounded w /\
  ~ attemptsBounded (snd (updateEvent (sampleEvent "a" PENDING 5 None) w)).
Proof.
  intros w. split.
  - unfold attemptsBounded, allStored. simpl. constructor.
  - unfold attemptsBounded, allStored. simpl.
    intros H. apply Forall_cons in H as [H _]. simpl in H.
    unfold MAX_RETRY_ATTEMPTS in H. lia.
Qed.

(** ** The reconciliation loop and the events it does not touch *)

(** An iteration of the loop leaves a stored event as it was when it works
    on an event of another [id], or skips its event. *)
Lemma syncEvent_frame (i : string) (x : option JsonEvent) (e : Event) :
  id e <> i \/ (MAX_RETRY_ATTEMPTS <= syncAttempts e)%Z ->
  hoare (fun w => storedEvent i w = x) (syncEvent e)
        (fun _ w => storedEvent i w = x).
Proof.
  intros He. unfold syncEvent.
  assert (Hst : forall w w', storage w' = storage w ->
                             storedEvent i w = x -> storedEvent i w' = x).
  { intros w w' H. by rewrite (storedEvent_storage _ _ _ H). }
  destruct (MAX_RETRY_ATTEMPTS <=? syncAttempts e)%Z eqn:Hmax;
    [by apply inv_print|].
  apply Z.leb_gt in Hmax. destruct He as [Hne|Hge]; [|lia].
  apply inv_try_catch.
  - apply inv_bind; [|intros; by apply inv_print]. by apply saveEvent_frame.
  - intros err. apply inv_bind; [|intros; by apply inv_print].
    apply saveEvent_frame. by destruct (MAX_RETRY_ATTEMPTS <=? _)%Z.
Qed.

Lemma syncEvent_uniqueIds (e : Event) :
  hoare uniqueIds (syncEvent e) (fun _ => uniqueIds).
Proof.
  unfold syncEvent.
  destruct (MAX_RETRY_ATTEMPTS <=? syncAttempts e)%Z;
    [apply inv_print, uniqueIds_storage|].
  apply inv_try_catch; [|intros err];
    (apply inv_bind;
     [apply saveEvent_uniqueIds | intros; apply inv_print, uniqueIds_storage]).
Qed.

Lemma syncEvents_uniqueIds : hoare uniqueIds syncEvents (fun _ => uniqueIds).
Proof.
  unfold syncEvents.
  apply inv_bind; [apply inv_isConnected|]. intros [|]; simpl;
    [|apply inv_print, uniqueIds_storage].
  apply inv_try_catch; [|intros err; apply inv_print, uniqueIds_storage].
  apply inv_bind.
  - eapply hoare_consequence;
      [apply inv_getEvents, uniqueIds_storage | done | by intros r w [Hw _]].
  - intros [l|]; [|apply inv_throw].
    apply inv_bind; [apply inv_ret|]. intros l'.
    apply (inv_forEach _ _ (fun _ => True)).
    + intros e _. apply syncEvent_uniqueIds.
    + by apply Forall_forall.
Qed.

(** A stored event whose counter reached the maximum is left as it is by
    [syncEvents], whatever the connectivity and the store calls. *)
Lemma syncEvents_skips_exhausted (i : string) (j : JsonEvent) (w : World) :
  uniqueIds w ->
  storedEvent i w = Some j ->
  (MAX_RETRY_ATTEMPTS <= syncAttempts j)%Z ->
  storedEvent i (snd (syncEvents w)) = Some j.
Proof.
  intros Huniq Hj Hmax.
  set (I := fun w => uniqueIds w /\ storedEvent i w = Some j).
  set (J := fun w => storedEvent i w = Some j).
  assert (HJ : forall w w', storage w' = storage w -> J w -> J w').
  { intros w0 w' H. unfold J. by rewrite (storedEvent_storage _ _ _ H). }
  assert (HI : forall w w', storage w' = storage w -> I w -> I w').
  { intros w0 w' H [H1 H2]. split; [by eapply uniqueIds_storage | by eapply HJ]. }
  enough (Hh : hoare I syncEvents (fun _ => J)) by (by apply Hh).
  unfold syncEvents.
  apply (hoare_bind _ _ I (fun _ => I));
    [apply inv_isConnected | | by intros e w0 [_ H]].
  intros [|]; simpl;
    [|eapply hoare_consequence; [apply (inv_print I HI) | done | by intros r w0 [_ H]]].
  apply (hoare_try_catch _ _ I (fun _ => J)); [|done|intros err; by apply inv_print].
  eapply hoare_bind; [apply (inv_getEvents I HI) | | by intros e w0 [[_ H] _]].
  intros [l|] w0 [[Hu Hs] Hl]; [|exact Hs].
  destruct (Hl l eq_refl) as (l0 & Hl0 & ->).
  change (J (snd (forEach syncEvent (List.filter pendingOrFailed (map fromJSON l0)) w0))).
  apply (inv_forEach J syncEvent
           (fun e => id e <> i \/ (MAX_RETRY_ATTEMPTS <= syncAttempts e)%Z));
    [intros e He; by apply syncEvent_frame | | exact Hs].
  apply Forall_forall. intros e He. apply list_elem_of_In, filter_In in He as [He _].
  apply in_map_iff in He as (j0 & <- & Hj0).
  destruct (decide (id j0 = i)) as [Hid|Hid]; [right|by left].
  unfold uniqueIds, storedEvent in *. rewrite Hl0 in *.
  by rewrite (lookupEvent_unique i j j0 l0 Hu Hs Hj0 Hid).
Qed.

(** ... and by any number of passes. *)
Lemma passes_skip_exhausted (envs : list (option bool * list (option string)))
    (i : string) (j : JsonEvent) (w : World) :
  uniqueIds w ->
  storedEvent i w = Some j ->
  (MAX_RETRY_ATTEMPTS <= syncAttempts j)%Z ->
  storedEvent i (passes envs w) = Some j.
Proof.
  intros Hu Hj Hmax. revert w Hu Hj.
  induction envs as [|[net outcomes] later IH]; intros w Hu Hj; simpl; [exact Hj|].
  set (w0 := mkWorld net (storage w) outcomes (console w)).
  assert (Hu0 : uniqueIds w0) by (by apply (uniqueIds_storage w w0)).
  assert (Hj0 : storedEvent i w0 = Some j)
    by (by rewrite (storedEvent_storage i w w0)).
  apply IH.
  - by apply syncEvents_uniqueIds.
  - by apply syncEvents_skips_exhausted.
Qed.

(** ** A pass, event by event *)

Lemma forEach_app {A} (body : A -> M unit) (l1 l2 : list A) (w : World) :
  forEach body (l1 ++ l2) w = (forEach body l1 ;; forEach body l2) w.
Proof.
  revert w. induction l1 as [|x l1 IH]; intros w; simpl.
  - reflexivity.
  - unfold bind in *. destruct (body x w) as [[u|e] w']; [apply IH | reflexivity].
Qed.

Lemma snapshot_app (l1 l2 : list JsonEvent) :
  snapshot (l1 ++ l2) = (snapshot l1 ++ snapshot l2)%list.
Proof. unfold snapshot. by rewrite map_app, List.filter_app. Qed.

Lemma snapshot_cons_selected (j : JsonEvent) (l : list JsonEvent) :
  status j = PENDING \/ status j = FAILED ->
  snapshot (j :: l) = fromJSON j :: snapshot l.
Proof.
  intros Hj. unfold snapshot. simpl.
  assert (Hp : pendingOrFailed (fromJSON j) = true).
  { unfold pendingOrFailed. simpl. by destruct Hj as [-> | ->]. }
  by rewrite Hp.
Qed.

Lemma snapshot_ids (l : list JsonEvent) (e : Event) :
  In e (snapshot l) -> In (id e) (map id l).
Proof.
  unfold snapshot. intros He. apply filter_In in He as [He _].
  apply in_map_iff in He as (j & <- & Hj). simpl. by apply in_map.
Qed.

(** An online pass whose enumeration goes through runs the loop over the
    snapshot of the stored array. *)
Lemma syncEvents_online_run (w : World) (l : list JsonEvent) :
  online w ->
  nextFault w = None ->
  storedEvents w = Some l ->
  syncEvents w =
    try_catch (forEach syncEvent (snapshot l))
              (fun error => print (ConsoleError "Sync process failed:" error))
              (spend w).
Proof.
  intros Hon Hnf Hl. unfold syncEvents, bind at 1, NetworkInfo.isConnected.
  rewrite Hon. simpl. unfold try_catch, bind.
  rewrite getEvents_result, Hnf, Hl. reflexivity.
Qed.

(** The rest of the loop, over events of other [id]s, leaves a stored event
    as it is, however the loop ends. *)
Lemma loop_frame (i : string) (x : option JsonEvent) (l : list JsonEvent) (w : World) :
  ~ In i (map id l) ->
  storedEvent i w = x ->
  storedEvent i (snd (forEach syncEvent (snapshot l) w)) = x.
Proof.
  intros Hi Hw.
  apply (inv_forEach (fun w => storedEvent i w = x) syncEvent
           (fun e => id e <> i \/ (MAX_RETRY_ATTEMPTS <= syncAttempts e)%Z));
    [intros e He; by apply syncEvent_frame | | exact Hw].
  apply Forall_forall. intros e He. left. intros Hid.
  apply list_elem_of_In, snapshot_ids in He. by rewrite Hid in He.
Qed.

(** What an online pass leaves of a stored event, from what the iteration
    for that event leaves of it: the iterations before are those that got
    the loop there, the iterations after work on other [id]s. *)
Lemma pass_through (w w1 : World) (l1 l2 : list JsonEvent) (j x : JsonEvent) :
  online w ->
  nextFault w = None ->
  stored w = Some (JsonArray (l1 ++ j :: l2)) ->
  NoDup (map id (l1 ++ j :: l2)) ->
  status j = PENDING \/ status j = FAILED ->
  forEach syncEvent (snapshot l1) (spend w) = (Ok tt, w1) ->
  fst (syncEvent (fromJSON j) w1) = Ok tt ->
  storedEvent (id j) (snd (syncEvent (fromJSON j) w1)) = Some x ->
  storedEvent (id j) (snd (syncEvents w)) = Some x.
Proof.
  intros Hon Hnf Hst Hnd Hsel Hprefix Hok Hthen.
  assert (Hl : storedEvents w = Some (l1 ++ j :: l2)%list).
  { unfold storedEvents. by rewrite Hst. }
  rewrite (syncEvents_online_run w _ Hon Hnf Hl).
  rewrite snapshot_app, (snapshot_cons_selected j l2 Hsel).
  unfold try_catch. rewrite forEach_app. unfold bind at 1. rewrite Hprefix.
  simpl forEach. unfold bind at 1.
  destruct (syncEvent (fromJSON j) w1) as [[[]|e0] w3]; simpl in Hok, Hthen; [|done].
  assert (Hloop : storedEvent (id j) (snd (forEach syncEvent (snapshot l2) w3)) = Some x).
  { apply loop_frame; [|exact Hthen].
    rewrite map_app in Hnd. simpl in Hnd.
    apply NoDup_app in Hnd as (_ & _ & Hnd).
    apply NoDup_cons in Hnd as [Hnd _]. by rewrite <- list_elem_of_In. }
  destruct (forEach syncEvent (snapshot l2) w3) as [[[]|e0] w4]; exact Hloop.
Qed.

(** ** An attempt that fails *)

(** The failure record of a stored event, as it is stored. *)
Lemma failure_record_fields (j : JsonEvent) (err : Exn) :
  let j' := toJSON (failedEvent (fromJSON j) err) in
  syncAttempts j' = (syncAttempts j + 1)%Z /\
  lastSyncError j' = Some (message_or err "Sync failed") /\
  status j' =
    (if (MAX_RETRY_ATTEMPTS <=? syncAttempts j + 1)%Z then FAILED else PENDING) /\
  sameDetails j' j.
Proof.
  destruct j as [i o t c oa p s n le ca ua sid].
  unfold failedEvent, sameDetails. simpl.
  destruct (MAX_RETRY_ATTEMPTS <=? n + 1)%Z; simpl; tauto.
Qed.

Lemma id_failedEvent (e : Event) (err : Exn) : id (failedEvent e err) = id e.
Proof. unfold failedEvent. simpl. by destruct (MAX_RETRY_ATTEMPTS <=? _)%Z. Qed.

(** The iteration for an event below the maximum whose save throws and
    whose failure record is then saved. *)
Lemma syncEvent_failed_attempt (e : Event) (err : Exn) (w w2 : World) :
  (syncAttempts e < MAX_RETRY_ATTEMPTS)%Z ->
  EventLocalDataSource.saveEvent (syncedEvent e) w = (Throw err, w2) ->
  fst (EventLocalDataSource.saveEvent (failedEvent e err) w2) = Ok tt ->
  fst (syncEvent e w) = Ok tt /\
  storedEvent (id e) (snd (syncEvent e w)) = Some (toJSON (failedEvent e err)).
Proof.
  intros Hlt Hattempt Hrecord. rewrite syncEvent_spelled_out.
  unfold syncEvent_result.
  apply Z.leb_gt in Hlt. rewrite Hlt, Hattempt.
  pose proof (saveEvent_ok_stored (failedEvent e err) w2 Hrecord) as Hst.
  destruct (EventLocalDataSource.saveEvent (failedEvent e err) w2) as [[[]|e'] w3];
    simpl in *; [|done].
  split; [reflexivity|]. by rewrite <- (id_failedEvent e err).
Qed.

(** C2: in an online pass whose enumeration goes through and whose loop
    gets to a stored event [j] (PENDING or FAILED, counter below the
    maximum), if the attempt for [j] throws [err] and the failure record
    is then saved, the stored event of that [id] is [j] with the counter
    one higher, [lastSyncError] set to the reason ([err]'s message, or
    'Sync failed' when it is empty), status FAILED when the counter
    reached the maximum and PENDING otherwise, and every other field as it
    was.  When the counter was [MAX_RETRY_ATTEMPTS - 1] the event is now
    FAILED with [MAX_RETRY_ATTEMPTS] attempts, and any number of further
    passes, under any connectivity and any outcomes of the store calls,
    leave it exactly so. *)
Theorem failed_attempt_recorded (w w1 w2 : World) (l1 l2 : list JsonEvent)
    (j : JsonEvent) (err : Exn) :
  online w ->
  nextFault w = None ->
  stored w = Some (JsonArray (l1 ++ j :: l2)) ->
  NoDup (map id (l1 ++ j :: l2)) ->
  status j = PENDING \/ status j = FAILED ->
  (syncAttempts j < MAX_RETRY_ATTEMPTS)%Z ->
  forEach syncEvent (snapshot l1) (spend w) = (Ok tt, w1) ->
  EventLocalDataSource.saveEvent (syncedEvent (fromJSON j)) w1 = (Throw err, w2) ->
  fst (EventLocalDataSource.saveEvent (failedEvent (fromJSON j) err) w2) = Ok tt ->
  let j' := toJSON (failedEvent (fromJSON j) err) in
  let w' := snd (syncEvents w) in
  storedEvent (id j) w' = Some j' /\
  syncAttempts j' = (syncAttempts j + 1)%Z /\
  lastSyncError j' = Some (message_or err "Sync failed") /\
  status j' =
    (if (MAX_RETRY_ATTEMPTS <=? syncAttempts j + 1)%Z then FAILED else PENDING) /\
  sameDetails j' j /\
  ((syncAttempts j = MAX_RETRY_ATTEMPTS - 1)%Z ->
   status j' = FAILED /\
   syncAttempts j' = MAX_RETRY_ATTEMPTS /\
   forall envs, storedEvent (id j) (passes envs w') = Some j').
Proof.
  intros Hon Hnf Hst Hnd Hsel Hlt Hprefix Hattempt Hrecord j' w'.
  destruct (failure_record_fields j err) as (Hn & Herr & Hstatus & Hsame).
  fold j' in Hn, Herr, Hstatus, Hsame.
  destruct (syncEvent_failed_attempt (fromJSON j) err w1 w2 Hlt Hattempt Hrecord)
    as [Hok Hthen].
  assert (Hstored : storedEvent (id j) w' = Some j')
    by exact (pass_through w w1 l1 l2 j j' Hon Hnf Hst Hnd Hsel Hprefix Hok Hthen).
  split; [exact Hstored|].
  split; [exact Hn|]. split; [exact Herr|]. split; [exact Hstatus|].
  split; [exact Hsame|].
  intros Hlast.
  assert (Hmax : syncAttempts j' = MAX_RETRY_ATTEMPTS) by (rewrite Hn; lia).
  split; [|split; [exact Hmax|]].
  { rewrite Hstatus, Hlast. reflexivity. }
  intros envs. apply passes_skip_exhausted.
  - apply syncEvents_uniqueIds. unfold uniqueIds, storedEvents. by rewrite Hst.
  - exact Hstored.
  - rewrite Hmax. lia.
Qed.

Lemma failed_attempt_recorded_witness :
  let a := toJSON (sampleEvent "a" PENDING 0 None) in
  let b := toJSON (sampleEvent "b" FAILED 2 (Some "timeout")) in
  let c := toJSON (sampleEvent "c" PENDING 1 None) in
  let w := sampleWorld (Some true) (Some (JsonArray [a; b; c]))
             [None; None; None; None; Some "disk full"; None; None; Some "again"] in
  let b' := toJSON (failedEvent (fromJSON b) (Rejected "disk full")) in
  storedEvent "b" (snd (syncEvents w)) = Some b' /\
  status b' = FAILED /\
  syncAttempts b' = 3%Z /\
  lastSyncError b' = Some "disk full" /\
  storedEvent "b" (passes [(Some true, []); (Some true, [None; Some "full"])]
                          (snd (syncEvents w))) = Some b'.
Proof.
  intros a b c w b'.
  set (w1 := snd (forEach syncEvent (snapshot [a]) (spend w))).
  set (w2 := snd (EventLocalDataSource.saveEvent (syncedEvent (fromJSON b)) w1)).
  assert (Hon : online w) by reflexivity.
  assert (Hnf : nextFault w = None) by reflexivity.
  assert (Hst : stored w = Some (JsonArray ([a] ++ b :: [c]))) by reflexivity.
  assert (Hnd : NoDup (map id ([a] ++ b :: [c])%list)).
  { apply (bool_decide_unpack _). vm_compute. exact I. }
  assert (Hsel : status b = PENDING \/ status b = FAILED) by (right; reflexivity).
  assert (Hlt : (syncAttempts b < MAX_RETRY_ATTEMPTS)%Z) by reflexivity.
  assert (Hprefix : forEach syncEvent (snapshot [a]) (spend w) = (Ok tt, w1))
    by (vm_compute; reflexivity).
  assert (Hattempt : EventLocalDataSource.saveEvent (syncedEvent (fromJSON b)) w1
                     = (Throw (Rejected "disk full"), w2))
    by (vm_compute; reflexivity).
  assert (Hrecord : fst (EventLocalDataSource.saveEvent
                           (failedEvent (fromJSON b) (Rejected "disk full")) w2) = Ok tt)
    by (vm_compute; reflexivity).
  destruct (failed_attempt_recorded w w1 w2 [a] [c] b (Rejected "disk full")
              Hon Hnf Hst Hnd Hsel Hlt Hprefix Hattempt Hrecord)
    as (Hstored & _ & _ & _ & _ & Hlast).
  destruct (Hlast eq_refl) as (Hstatus & Hmax & Hagain).
  split; [exact Hstored|]. split; [exact Hstatus|]. split; [exact Hmax|].
  split; [reflexivity|]. apply Hagain.
Defined.

(** ** A save that fails twice *)

(** C8, at two PENDING events "a" and "b" in an online pass where the
    enumeration and the first read go through, then the write of "a"
    rejects (its attempt fails) and the read of the handler's save rejects
    too; every later store call would go through.  The pass returns, "a"
    and "b" are stored as they were, and the console shows that the loop
    was left: nothing was attempted for "b".  (Had the handler's save gone
    through, the loop would have gone on and "b" would be SENT.) *)
Theorem syncEvents_aborts_on_failed_record :
  let a := sampleEvent "a" PENDING 0 None in
  let b := sampleEvent "b" PENDING 0 None in
  let text := Some (JSON_stringify [a; b]) in
  let w := sampleWorld (Some true) text
             [None; None; Some "disk full"; Some "disk full"] in
  let w_once := sampleWorld (Some true) text [None; None; Some "disk full"] in
  fst (syncEvents w) = Ok tt /\
  faults (snd (syncEvents w)) = [] /\
  storedEvent "a" (snd (syncEvents w)) = Some (toJSON a) /\
  storedEvent "b" (snd (syncEvents w)) = Some (toJSON b) /\
  console (snd (syncEvents w))
    = [ConsoleError "Sync process failed:" (Rejected "disk full")] /\
  storedEvent "b" (snd (syncEvents w_once)) = Some (toJSON (syncedEvent b)).
Proof.
  intros a b text w w_once. repeat split; vm_compute; reflexivity.
Qed.

(** ** An attempt that succeeds *)

(** The iteration for an event below the maximum whose save goes through. *)
Lemma syncEvent_successful_attempt (e : Event) (w : World) :
  (syncAttempts e < MAX_RETRY_ATTEMPTS)%Z ->
  fst (EventLocalDataSource.saveEvent (syncedEvent e) w) = Ok tt ->
  fst (syncEvent e w) = Ok tt /\
  storedEvent (id e) (snd (syncEvent e w)) = Some (toJSON (syncedEvent e)).
Proof.
  intros Hlt Hattempt. rewrite syncEvent_spelled_out. unfold syncEvent_result.
  apply Z.leb_gt in Hlt. rewrite Hlt.
  pose proof (saveEvent_ok_stored (syncedEvent e) w Hattempt) as Hst.
  destruct (EventLocalDataSource.saveEvent (syncedEvent e) w) as [[[]|e'] w1];
    simpl in *; [|done].
  split; [reflexivity | exact Hst].
Qed.

(** What an online pass leaves of a stored event [j] (PENDING or FAILED,
    counter below the maximum) whose attempt goes through: status SENT, a
    zero counter, and every other field as it was; [lastSyncError] is among
    the fields that are kept. *)
Lemma successful_attempt_recorded (w w1 : World) (l1 l2 : list JsonEvent)
    (j : JsonEvent) :
  online w ->
  nextFault w = None ->
  stored w = Some (JsonArray (l1 ++ j :: l2)) ->
  NoDup (map id (l1 ++ j :: l2)) ->
  status j = PENDING \/ status j = FAILED ->
  (syncAttempts j < MAX_RETRY_ATTEMPTS)%Z ->
  forEach syncEvent (snapshot l1) (spend w) = (Ok tt, w1) ->
  fst (EventLocalDataSource.saveEvent (syncedEvent (fromJSON j)) w1) = Ok tt ->
  storedEvent (id j) (snd (syncEvents w))
    = Some (set_syncAttempts 0 (set_status SENT j)).
Proof.
  intros Hon Hnf Hst Hnd Hsel Hlt Hprefix Hattempt.
  destruct (syncEvent_successful_attempt (fromJSON j) w1 Hlt Hattempt) as [Hok Hthen].
  assert (Hj : toJSON (syncedEvent (fromJSON j)) = set_syncAttempts 0 (set_status SENT j))
    by (by destruct j).
  rewrite Hj in Hthen.
  exact (pass_through w w1 l1 l2 j _ Hon Hnf Hst Hnd Hsel Hprefix Hok Hthen).
Qed.

(** C1, at a stored event that failed once before: a PENDING event with one
    attempt and [lastSyncError] 'timeout', an online pass, every store call
    going through.  The pass returns and leaves the event SENT with a zero
    counter, but its [lastSyncError] is still 'timeout': the copy that is
    saved is never cleared of it. *)
Theorem syncEvents_success_keeps_lastSyncError :
  let e := sampleEvent "a" PENDING 1 (Some "timeout") in
  let w := sampleWorld (Some true) (Some (JSON_stringify [e])) [] in
  fst (syncEvents w) = Ok tt /\
  storedEvent "a" (snd (syncEvents w))
    = Some (toJSON (sampleEvent "a" SENT 0 (Some "timeout"))) /\
  option_map lastSyncError (storedEvent "a" (snd (syncEvents w)))
    <> Some None.
Proof.
  intros e w. split; [vm_compute; reflexivity|].
  assert (Hst : storedEvent "a" (snd (syncEvents w))
                = Some (toJSON (sampleEvent "a" SENT 0 (Some "timeout")))).
  { apply (successful_attempt_recorded w (spend w) [] [] (toJSON e)).
    - reflexivity.
    - reflexivity.
    - reflexivity.
    - apply (bool_decide_unpack _). vm_compute. exact I.
    - left. reflexivity.
    - reflexivity.
    - reflexivity.
    - vm_compute. reflexivity. }
  split; [exact Hst|]. rewrite Hst. simpl. discriminate.
Qed.

(** ** The bookkeeping timestamps *)

(** [createEvent] and [updateEvent] assign to [status], [syncAttempts] and
    [lastSyncError] only: what they return, and what they leave of the
    caller's object, has the [updatedAt] (and every other detail) it was
    given. *)
Lemma createEvent_sameDetails (e : Event) (w w' : World) (r : Returned) :
  createEvent e w = (Ok r, w') ->
  sameDetails (returned r) e /\ sameDetails (argument r) e.
Proof.
  unfold createEvent, bind, try_catch, NetworkInfo.isConnected.
  destruct (default false (netState w)).
  - destruct (EventLocalDataSource.saveEvent _ w) as [[u|err] w1]; simpl.
    + intros [= <- _]. by unfold sameDetails.
    + destruct (EventLocalDataSource.saveEvent _ w1) as [[u|err'] w2]; simpl; [|done].
      intros [= <- _]. by unfold sameDetails.
  - destruct (EventLocalDataSource.saveEvent _ w) as [[u|err] w1]; simpl; [|done].
    intros [= <- _]. by unfold sameDetails.
Qed.

Lemma updateEvent_sameDetails (e : Event) (w w' : World) (r : Returned) :
  updateEvent e w = (Ok r, w') ->
  sameDetails (returned r) e /\ sameDetails (argument r) e.
Proof.
  unfold updateEvent, bind, try_catch, NetworkInfo.isConnected.
  destruct (default false (netState w)).
  - destruct (EventLocalDataSource.saveEvent _ w) as [[u|err] w1]; simpl.
    + intros [= <- _]. by unfold sameDetails.
    + destruct (EventLocalDataSource.saveEvent _ _) as [[u|err'] w2]; simpl; [|done].
      intros [= <- _]. by unfold sameDetails.
  - destruct (EventLocalDataSource.saveEvent _ w) as [[u|err] w1]; simpl; [|done].
    intros [= <- _]. by unfold sameDetails.
Qed.

(** C6, at an event created offline, reconciled once the connection is
    back, then edited and passed to [updateEvent], every store call going
    through.  Each of the three operations persists the event (PENDING,
    then SENT, then SENT with the new comment), and the stored
    [updatedAt] is throughout the one the event was created with; the
    events [createEvent] and [updateEvent] return carry it too. *)
Theorem persisted_mutations_keep_updatedAt :
  let e := sampleEvent "a" PENDING 0 None in
  let w0 := sampleWorld (Some false) None [] in
  let w1 := snd (createEvent e w0) in
  let w2 := passes [(Some true, [])] w1 in
  let w3 := snd (updateEvent editedEvent w2) in
  fst (createEvent e w0) = Ok (mkReturned e e) /\
  fst (updateEvent editedEvent w2)
    = Ok (mkReturned (set_status SENT editedEvent)
                     (set_lastSyncError (Some "") editedEvent)) /\
  option_map status (storedEvent "a" w1) = Some PENDING /\
  option_map status (storedEvent "a" w2) = Some SENT /\
  option_map comment (storedEvent "a" w2) = Some "Oil change" /\
  option_map comment (storedEvent "a" w3) = Some "Oil and filter change" /\
  updatedAt e = DateObject "2024-03-01T09:31:00.000Z" /\
  option_map updatedAt (storedEvent "a" w1) = Some "2024-03-01T09:31:00.000Z" /\
  option_map updatedAt (storedEvent "a" w2) = Some "2024-03-01T09:31:00.000Z" /\
  option_map updatedAt (storedEvent "a" w3) = Some "2024-03-01T09:31:00.000Z" /\
  updatedAt (set_status SENT editedEvent) = updatedAt editedEvent.
Proof.
  intros e w0 w1 w2 w3. repeat split; vm_compute; reflexivity.
Qed.

(** ** Saving the collection and loading it again *)

(** When the two store calls go through, [getEvents] after [saveEvents]
    returns as many events, each with every field that is no timestamp as
    it was and each timestamp as the string [toJSON] wrote. *)
Lemma saveEvents_getEvents (events : list Event) (w : World) :
  nextFault w = None ->
  nextFault (spend w) = None ->
  let w' := snd (EventLocalDataSource.saveEvents events w) in
  fst (EventLocalDataSource.saveEvents events w) = Ok tt /\
  fst (EventLocalDataSource.getEvents w')
    = Ok (Events (map (fun e => fromJSON (toJSON e)) events)).
Proof.
  intros H1 H2. rewrite saveEvents_result, H1. simpl. split; [reflexivity|].
  rewrite getEvents_result. simpl.
  change (nextFault (write (JSON_stringify events) (spend w)))
    with (nextFault (spend w)).
  rewrite H2. unfold JSON_stringify. rewrite storedEvents_write.
  by rewrite map_map.
Qed.

(** C7, at one event whose timestamps are [Date] objects: after
    [saveEvents] and [getEvents], both going through, the one event that
    comes back is not the original: its [occurredAt], [createdAt] and
    [updatedAt] are strings. *)
Theorem saveEvents_getEvents_loses_dates :
  let e := sampleEvent "a" PENDING 0 None in
  let w := sampleWorld (Some true) None [] in
  let w' := snd (EventLocalDataSource.saveEvents [e] w) in
  occurredAt e = DateObject "2024-03-01T09:30:00.000Z" /\
  fst (EventLocalDataSource.saveEvents [e] w) = Ok tt /\
  fst (EventLocalDataSource.getEvents w')
    = Ok (Events [mapTimestamps (fun t => IsoString (Timestamp_toJSON t)) e]) /\
  fst (EventLocalDataSource.getEvents w') <> Ok (Events [e]) /\
  occurredAt (mapTimestamps (fun t => IsoString (Timestamp_toJSON t)) e)
    = IsoString "2024-03-01T09:30:00.000Z".
Proof.
  intros e w w'.
  destruct (saveEvents_getEvents [e] w eq_refl eq_refl) as [Hsave Hget].
  split; [reflexivity|]. split; [exact Hsave|].
  fold w' in Hget. split; [exact Hget|]. split; [|reflexivity].
  rewrite Hget. discriminate.
Qed.

(** * Further properties of the data source *)

Lemma removeId_map {A B} (f : EventOf A -> EventOf B) (i : string)
    (l : list (EventOf A)) :
  (forall x, id (f x) = id x) ->
  map f (removeId i l) = removeId i (map f l).
Proof.
  intros Hid. induction l as [|x l IH]; [done|].
  unfold removeId in *. simpl. rewrite Hid.
  destruct (String.eqb (id x) i); simpl; by rewrite IH.
Qed.

Lemma lookupEvent_removeId {T} (i k : string) (l : list (EventOf T)) :
  lookupEvent k (removeId i l) =
    if String.eqb k i then None else lookupEvent k l.
Proof.
  induction l as [|x l IH]; [by destruct (String.eqb k i)|].
  unfold lookupEvent, removeId in *. simpl.
  destruct (String.eqb (id x) i) eqn:Hxi; simpl.
  - apply String.eqb_eq in Hxi. rewrite IH.
    destruct (String.eqb k i) eqn:Hki; [done|].
    destruct (String.eqb (id x) k) eqn:Hxk; [|done].
    apply String.eqb_eq in Hxk. apply String.eqb_neq in Hki. congruence.
  - destruct (String.eqb (id x) k) eqn:Hxk.
    + apply String.eqb_eq in Hxk. subst k. by rewrite Hxi.
    + exact IH.
Qed.

Lemma ids_upsert_list {T} (e : EventOf T) (l : list (EventOf T)) :
  map id (upsert e l) =
    match lookupEvent (id e) l with
    | Some _ => map id l
    | None => (map id l ++ [id e])%list
    end.
Proof.
  induction l as [|x l IH]; [done|].
  rewrite upsert_cons. unfold lookupEvent in *. simpl.
  destruct (String.eqb (id x) (id e)) eqn:Hx.
  - apply String.eqb_eq in Hx. simpl. by rewrite Hx.
  - simpl. rewrite IH. by destruct (find _ l).
Qed.

(** [deleteEvent] of the data source spelled out on the world. *)
Lemma deleteEvent_result (i : string) (w : World) :
  EventLocalDataSource.deleteEvent i w =
    match nextFault w with
    | Some msg => (Throw (Rejected msg), spend w)
    | None =>
        match storedEvents w with
        | None => (Throw (TypeError "events.filter is not a function"), spend w)
        | Some l =>
            match nextFault (spend w) with
            | Some msg => (Throw (Rejected msg), spend (spend w))
            | None => (Ok tt, write (JsonArray (removeId i l)) (spend (spend w)))
            end
        end
    end.
Proof.
  unfold EventLocalDataSource.deleteEvent, bind.
  rewrite getEvents_result. destruct (nextFault w) as [msg|]; [done|].
  destruct (storedEvents w) as [l|]; simpl; [|done].
  rewrite saveEvents_result.
  destruct (nextFault (spend w)) as [msg|]; [done|].
  unfold JSON_stringify. do 3 f_equal.
  rewrite <- (map_toJSON_fromJSON l) at 2.
  by apply (removeId_map toJSON i (map fromJSON l)).
Qed.

Lemma getEventById_reliable (i : string) (w : World) (l : list JsonEvent) :
  nextFault w = None ->
  storedEvents w = Some l ->
  fst (EventLocalDataSource.getEventById i w) = Ok (option_map fromJSON (lookupEvent i l)).
Proof.
  intros Hf Hl. change (EventLocalDataSource.getEventById i) with (getEventById i).
  rewrite getEventById_result, Hf, Hl. reflexivity.
Qed.

(** X1 (saveEvent, getEventById of the data source).  When the store calls
    go through and the stored text is not a JSON value other than an array,
    [saveEvent] returns, a lookup of the saved [id] then returns the event
    as it reads back from the store, and a lookup of any other [id] returns
    what it returned before the save. *)
Theorem saveEvent_then_getEventById (e : Event) (k : string) (w : World) :
  reliable w ->
  stored w <> Some JsonOther ->
  let w' := snd (EventLocalDataSource.saveEvent e w) in
  fst (EventLocalDataSource.saveEvent e w) = Ok tt /\
  fst (EventLocalDataSource.getEventById (id e) w') = Ok (Some (reloaded e)) /\
  (k <> id e ->
   fst (EventLocalDataSource.getEventById k w')
     = fst (EventLocalDataSource.getEventById k w)).
Proof.
  intros Hrel Hst w'.
  destruct (saveEvent_reliable e w Hrel Hst) as (l & Hl & Hsave).
  subst w'. rewrite Hsave. simpl.
  set (w1 := write _ _).
  assert (Hf1 : nextFault w1 = None).
  { apply reliable_nextFault. by apply reliable_write, reliable_spend, reliable_spend. }
  assert (Hl1 : storedEvents w1 = Some (upsert (toJSON e) l))
    by apply storedEvents_write.
  split; [done|]. split.
  - rewrite (getEventById_reliable _ _ _ Hf1 Hl1), lookupEvent_upsert. simpl.
    rewrite String.eqb_refl. simpl. by rewrite fromJSON_toJSON.
  - intros Hk.
    rewrite (getEventById_reliable _ _ _ Hf1 Hl1), lookupEvent_upsert. simpl.
    rewrite (getEventById_reliable _ _ _ (reliable_nextFault w Hrel) Hl).
    assert (String.eqb (id e) k = false) as -> by (apply String.eqb_neq; congruence).
    reflexivity.
Qed.

Lemma saveEvent_then_getEventById_witness :
  let e := sampleEvent "b" PENDING 0 None in
  let w := sampleWorld (Some true)
             (Some (JSON_stringify [sampleEvent "a" SENT 0 None])) [] in
  let w' := snd (EventLocalDataSource.saveEvent e w) in
  fst (EventLocalDataSource.saveEvent e w) = Ok tt /\
  fst (EventLocalDataSource.getEventById "b" w') = Ok (Some (reloaded e)) /\
  fst (EventLocalDataSource.getEventById "a" w')
    = fst (EventLocalDataSource.getEventById "a" w).
Proof.
  intros e w w'.
  assert (Hrel : reliable w) by constructor.
  assert (Hst : stored w <> Some JsonOther) by (vm_compute; congruence).
  destruct (saveEvent_then_getEventById e "a" w Hrel Hst) as (H1 & H2 & H3).
  split; [exact H1|]. split; [exact H2|].
  apply H3. vm_compute. congruence.
Defined.

(** X2 (saveEvent of the data source).  A save that returns keeps the order
    of the stored events: when an event with the [id] is stored the list of
    [id]s is unchanged and the first such event is the saved one; when none
    is, the [id] is appended at the end. *)
Theorem saveEvent_keeps_order (e : Event) (w : World) (l : list JsonEvent) :
  storedEvents w = Some l ->
  fst (EventLocalDataSource.saveEvent e w) = Ok tt ->
  exists l',
    storedEvents (snd (EventLocalDataSource.saveEvent e w)) = Some l' /\
    lookupEvent (id e) l' = Some (toJSON e) /\
    map id l' = match lookupEvent (id e) l with
                | Some _ => map id l
                | None => (map id l ++ [id e])%list
                end.
Proof.
  intros Hl. rewrite saveEvent_spelled_out. unfold saveEvent_result.
  destruct (nextFault w); [done|]. rewrite Hl.
  destruct (nextFault (spend w)); [done|]. simpl. intros _.
  exists (upsert (toJSON e) l). split; [apply storedEvents_write|]. split.
  - rewrite lookupEvent_upsert. simpl. by rewrite String.eqb_refl.
  - apply (ids_upsert_list (toJSON e) l).
Qed.

Lemma saveEvent_keeps_order_witness :
  let a := sampleEvent "a" SENT 0 None in
  let b := sampleEvent "b" PENDING 0 None in
  let w := sampleWorld (Some true) (Some (JSON_stringify [a; b])) [] in
  exists l',
    storedEvents (snd (EventLocalDataSource.saveEvent editedEvent w)) = Some l' /\
    lookupEvent "a" l' = Some (toJSON editedEvent) /\
    map id l' = ["a"; "b"].
Proof.
  intros a b w.
  exact (saveEvent_keeps_order editedEvent w [toJSON a; toJSON b] eq_refl eq_refl).
Defined.

(** X3 (deleteEvent, getEventById of the data source).  When the store
    calls go through and the stored text is not a JSON value other than an
    array, [deleteEvent] returns, a lookup of the deleted [id] then returns
    [null], and a lookup of any other [id] returns what it returned
    before. *)
Theorem deleteEvent_then_getEventById (i k : string) (w : World) :
  reliable w ->
  stored w <> Some JsonOther ->
  let w' := snd (EventLocalDataSource.deleteEvent i w) in
  fst (EventLocalDataSource.deleteEvent i w) = Ok tt /\
  fst (EventLocalDataSource.getEventById i w') = Ok None /\
  (k <> i ->
   fst (EventLocalDataSource.getEventById k w')
     = fst (EventLocalDataSource.getEventById k w)).
Proof.
  intros Hrel Hst w'. subst w'. rewrite deleteEvent_result.
  rewrite (reliable_nextFault w Hrel).
  rewrite (reliable_nextFault (spend w) (reliable_spend w Hrel)).
  assert (exists l, storedEvents w = Some l) as [l Hl].
  { unfold storedEvents. destruct (stored w) as [[| | |l]|]; try congruence; eauto. }
  rewrite Hl. simpl. set (w1 := write _ _).
  assert (Hf1 : nextFault w1 = None).
  { apply reliable_nextFault. by apply reliable_write, reliable_spend, reliable_spend. }
  assert (Hl1 : storedEvents w1 = Some (removeId i l)) by apply storedEvents_write.
  split; [done|]. split.
  - rewrite (getEventById_reliable _ _ _ Hf1 Hl1), lookupEvent_removeId.
    by rewrite String.eqb_refl.
  - intros Hk.
    rewrite (getEventById_reliable _ _ _ Hf1 Hl1), lookupEvent_removeId.
    rewrite (getEventById_reliable _ _ _ (reliable_nextFault w Hrel) Hl).
    assert (String.eqb k i = false) as -> by (by apply String.eqb_neq).
    reflexivity.
Qed.

Lemma deleteEvent_then_getEventById_witness :
  let a := sampleEvent "a" SENT 0 None in
  let b := sampleEvent "b" PENDING 0 None in
  let w := sampleWorld (Some true) (Some (JSON_stringify [a; b; a])) [] in
  let w' := snd (EventLocalDataSource.deleteEvent "a" w) in
  fst (EventLocalDataSource.deleteEvent "a" w) = Ok tt /\
  fst (EventLocalDataSource.getEventById "a" w') = Ok None /\
  fst (EventLocalDataSource.getEventById "b" w')
    = fst (EventLocalDataSource.getEventById "b" w).
Proof.
  intros a b w w'.
  assert (Hrel : reliable w) by constructor.
  assert (Hst : stored w <> Some JsonOther) by (vm_compute; congruence).
  destruct (deleteEvent_then_getEventById "a" "b" w Hrel Hst) as (H1 & H2 & H3).
  split; [exact H1|]. split; [exact H2|].
  apply H3. vm_compute. congruence.
Defined.

(** X4 (getEvents).  [getEvents] never changes the store.  It throws only
    when the read of the store rejects, and then with that rejection: a key
    that is unset, an empty text and a text that is not JSON all read as the
    empty list, the parse error being swallowed. *)
Theorem getEvents_tolerant (w : World) :
  storage (snd (EventLocalDataSource.getEvents w)) = storage w /\
  (forall error, fst (EventLocalDataSource.getEvents w) = Throw error ->
                 exists msg, nextFault w = Some msg /\ error = Rejected msg) /\
  (nextFault w = None ->
   stored w = None \/ stored w = Some EmptyText \/ stored w = Some NotJson ->
   fst (EventLocalDataSource.getEvents w) = Ok (Events [])).
Proof.
  rewrite getEvents_result. simpl. split; [done|]. split.
  - intros error. destruct (nextFault w) as [msg|]; [|done].
    intros [= <-]. by exists msg.
  - intros -> Hst. unfold storedEvents.
    by destruct Hst as [-> | [-> | ->]].
Qed.

Lemma getEvents_tolerant_witness :
  let w := sampleWorld (Some true) (Some NotJson) [None; Some "disk error"] in
  storage (snd (EventLocalDataSource.getEvents w)) = storage w /\
  fst (EventLocalDataSource.getEvents w) = Ok (Events []) /\
  fst (EventLocalDataSource.getEvents (snd (EventLocalDataSource.getEvents w)))
    = Throw (Rejected "disk error").
Proof.
  intros w.
  destruct (getEvents_tolerant w) as (H1 & _ & H3).
  split; [exact H1|]. split; [|reflexivity].
  apply H3; [reflexivity|]. right. right. reflexivity.
Defined.

(** X5 (saveEvents, getEvents).  When the write and the read go through,
    the events that [getEvents] returns after [saveEvents] are the saved
    ones, in order, with every field but the timestamps as saved and each
    timestamp as the ISO string of the saved one.  Saving what was loaded
    and loading again returns the same events: after the first trip the
    round trip is the identity. *)
Theorem saveEvents_getEvents_roundtrip (events : list Event) (w : World) :
  nextFault w = None ->
  nextFault (spend w) = None ->
  let w1 := snd (EventLocalDataSource.saveEvents events w) in
  fst (EventLocalDataSource.getEvents w1) = Ok (Events (map reloaded events)) /\
  (forall w2, nextFault w2 = None -> nextFault (spend w2) = None ->
     fst (EventLocalDataSource.getEvents
            (snd (EventLocalDataSource.saveEvents (map reloaded events) w2)))
       = Ok (Events (map reloaded events))).
Proof.
  assert (Hround : forall evs w0, nextFault w0 = None -> nextFault (spend w0) = None ->
            fst (EventLocalDataSource.getEvents
                   (snd (EventLocalDataSource.saveEvents evs w0)))
              = Ok (Events (map reloaded evs))).
  { intros evs w0 H0 H1. rewrite saveEvents_result, H0. simpl.
    rewrite getEvents_result. simpl.
    change (nextFault (write (JSON_stringify evs) (spend w0)))
      with (nextFault (spend w0)).
    rewrite H1. unfold JSON_stringify. rewrite storedEvents_write.
    do 2 f_equal. rewrite map_map. apply map_ext. intros e. apply fromJSON_toJSON. }
  intros H0 H1 w1. split; [by apply Hround|].
  intros w2 H2 H3. rewrite (Hround _ w2 H2 H3). do 2 f_equal.
  rewrite map_map. apply map_ext. intros e. by destruct e.
Qed.

Lemma saveEvents_getEvents_roundtrip_witness :
  let events := [sampleEvent "a" SENT 0 None; sampleEvent "b" FAILED 3 (Some "timeout")] in
  let w := sampleWorld (Some false) None [] in
  fst (EventLocalDataSource.getEvents (snd (EventLocalDataSource.saveEvents events w)))
    = Ok (Events (map reloaded events)) /\
  fst (EventLocalDataSource.getEvents
         (snd (EventLocalDataSource.saveEvents (map reloaded events) w)))
    = Ok (Events (map reloaded events)).
Proof.
  intros events w.
  destruct (saveEvents_getEvents_roundtrip events w eq_refl eq_refl) as [H1 H2].
  split; [exact H1|]. exact (H2 w eq_refl eq_refl).
Defined.

(** X6 (saveEvent of the data source, on a text that holds no array).  Over
    an unset key, an empty text or a text that is not JSON, a save whose
    store calls go through replaces the text by the array of the one event.
    Over a JSON text that is no array, the save throws a [TypeError] and
    writes nothing, whatever the outcomes of the later store calls. *)
Theorem saveEvent_without_array (e : Event) (w : World) :
  nextFault w = None ->
  (stored w = None \/ stored w = Some EmptyText \/ stored w = Some NotJson ->
   nextFault (spend w) = None ->
   fst (EventLocalDataSource.saveEvent e w) = Ok tt /\
   stored (snd (EventLocalDataSource.saveEvent e w)) = Some (JsonArray [toJSON e])) /\
  (stored w = Some JsonOther ->
   (exists msg, fst (EventLocalDataSource.saveEvent e w) = Throw (TypeError msg)) /\
   storage (snd (EventLocalDataSource.saveEvent e w)) = storage w).
Proof.
  intros H0. rewrite saveEvent_spelled_out. unfold saveEvent_result. rewrite H0.
  unfold storedEvents. split.
  - intros Hst ->. destruct Hst as [-> | [-> | ->]]; simpl;
      by rewrite stored_write.
  - intros ->. simpl. split; [by eexists | done].
Qed.

Lemma saveEvent_without_array_witness :
  let e := sampleEvent "a" PENDING 0 None in
  let w := sampleWorld (Some false) (Some NotJson) [] in
  let w_obj := sampleWorld (Some false) (Some JsonOther) [] in
  stored (snd (EventLocalDataSource.saveEvent e w)) = Some (JsonArray [toJSON e]) /\
  (exists msg, fst (EventLocalDataSource.saveEvent e w_obj) = Throw (TypeError msg)) /\
  stored (snd (EventLocalDataSource.saveEvent e w_obj)) = Some JsonOther.
Proof.
  intros e w w_obj.
  destruct (saveEvent_without_array e w eq_refl) as [H1 _].
  destruct (saveEvent_without_array e w_obj eq_refl) as [_ H2].
  split.
  - apply H1; [right; right; reflexivity | reflexivity].
  - destruct (H2 eq_refl) as [H3 _]. split; [exact H3 | reflexivity].
Defined.

(** X7 (clearEvents).  When its store call goes through, [clearEvents]
    unsets the events key and leaves every other key of the store as it
    was; the collection then reads as empty.  When the call rejects,
    [clearEvents] throws the rejection and the store is unchanged. *)
Theorem clearEvents_then_getEvents (w : World) :
  (nextFault w = None ->
   let w' := snd (EventLocalDataSource.clearEvents w) in
   fst (EventLocalDataSource.clearEvents w) = Ok tt /\
   stored w' = None /\
   (forall key, key <> EventLocalDataSource.EVENTS_KEY ->
                storage w' !! key = storage w !! key) /\
   (nextFault w' = None -> fst (EventLocalDataSource.getEvents w') = Ok (Events []))) /\
  (forall msg, nextFault w = Some msg ->
     fst (EventLocalDataSource.clearEvents w) = Throw (Rejected msg) /\
     storage (snd (EventLocalDataSource.clearEvents w)) = storage w).
Proof.
  unfold EventLocalDataSource.clearEvents, IDatabase.removeItem, bind.
  rewrite call_result. split.
  - intros ->. simpl. split; [done|].
    assert (Hst : stored (mkWorld (netState w)
                            (delete EventLocalDataSource.EVENTS_KEY (storage w))
                            (tail (faults w)) (console w)) = None).
    { unfold stored. simpl. apply lookup_delete_eq. }
    split; [exact Hst|]. split.
    + intros key Hkey. by apply lookup_delete_ne.
    + intros Hf. rewrite getEvents_result, Hf. unfold storedEvents. by rewrite Hst.
  - by intros msg ->.
Qed.

Lemma clearEvents_then_getEvents_witness :
  let w := sampleWorld (Some true)
             (Some (JSON_stringify [sampleEvent "a" SENT 0 None])) [] in
  let w' := snd (EventLocalDataSource.clearEvents w) in
  fst (EventLocalDataSource.clearEvents w) = Ok tt /\
  stored w' = None /\
  fst (EventLocalDataSource.getEvents w') = Ok (Events []).
Proof.
  intros w w'.
  destruct (clearEvents_then_getEvents w) as [H _].
  destruct (H eq_refl) as (H1 & H2 & _ & H4).
  split; [exact H1|]. split; [exact H2|]. exact (H4 eq_refl).
Defined.

(** * Further properties of the repository *)

(** However a save ends, it leaves the connectivity report and the console
    alone; a save that throws leaves the store as it was. *)
Lemma saveEvent_throws_untouched (e : Event) (w : World) (err : Exn) :
  fst (EventLocalDataSource.saveEvent e w) = Throw err ->
  storage (snd (EventLocalDataSource.saveEvent e w)) = storage w.
Proof.
  rewrite saveEvent_spelled_out. unfold saveEvent_result.
  destruct (nextFault w); [done|].
  destruct (storedEvents w); [|done].
  by destruct (nextFault (spend w)).
Qed.

Lemma saveEvent_console (e : Event) (w : World) :
  console (snd (EventLocalDataSource.saveEvent e w)) = console w /\
  netState (snd (EventLocalDataSource.saveEvent e w)) = netState w.
Proof.
  rewrite saveEvent_spelled_out. unfold saveEvent_result.
  destruct (nextFault w); [done|].
  destruct (storedEvents w); [|done].
  by destruct (nextFault (spend w)).
Qed.

(** A save at a world whose next two store calls go through and whose text
    reads as an array. *)
Lemma saveEvent_goes_through (e : Event) (w : World) (l : list JsonEvent) :
  nextFault w = None ->
  nextFault (spend w) = None ->
  storedEvents w = Some l ->
  EventLocalDataSource.saveEvent e w =
    (Ok tt, write (JsonArray (upsert (toJSON e) l)) (spend (spend w))).
Proof.
  intros H0 H1 Hl. rewrite saveEvent_spelled_out. unfold saveEvent_result.
  by rewrite H0, Hl, H1.
Qed.

Lemma online_isConnected (w : World) :
  online w -> NetworkInfo.isConnected w = (Ok true, w).
Proof. unfold online, NetworkInfo.isConnected. by intros ->. Qed.

(** X8 (createEvent, online, the save goes through).  With a connection
    reported and the store calls going through, [createEvent] returns a
    copy of the event with status SENT and a zero retry counter, stored
    under its [id]; [lastSyncError] is as given, and the object of the
    caller is left as it was.  Nothing is printed. *)
Theorem createEvent_online_sent (e : Event) (w : World) :
  online w ->
  reliable w ->
  stored w <> Some JsonOther ->
  exists r w',
    createEvent e w = (Ok r, w') /\
    returned r = set_syncAttempts 0 (set_status SENT e) /\
    argument r = e /\
    status (returned r) = SENT /\
    syncAttempts (returned r) = 0%Z /\
    lastSyncError (returned r) = lastSyncError e /\
    sameDetails (returned r) e /\
    storedEvent (id e) w' = Some (toJSON (returned r)) /\
    console w' = console w.
Proof.
  intros Hon Hrel Hst.
  set (e' := set_syncAttempts 0 (set_status SENT e)).
  destruct (saveEvent_reliable e' w Hrel Hst) as (l & Hl & Hsave).
  exists (mkReturned e' e), (write (JsonArray (upsert (toJSON e') l)) (spend (spend w))).
  split.
  { unfold createEvent, bind at 1. rewrite (online_isConnected w Hon).
    unfold try_catch, bind. fold e'. by rewrite Hsave. }
  simpl. repeat split.
  unfold storedEvent. rewrite storedEvents_write, lookupEvent_upsert. simpl.
  by rewrite String.eqb_refl.
Qed.

Lemma createEvent_online_sent_witness :
  let e := sampleEvent "n" PENDING 2 (Some "timeout") in
  let w := sampleWorld (Some true)
             (Some (JSON_stringify [sampleEvent "a" SENT 0 None])) [None; None] in
  exists r w',
    createEvent e w = (Ok r, w') /\
    status (returned r) = SENT /\
    syncAttempts (returned r) = 0%Z /\
    lastSyncError (returned r) = Some "timeout" /\
    argument r = e /\
    storedEvent "n" w' = Some (toJSON (returned r)).
Proof.
  intros e w.
  assert (Hon : online w) by reflexivity.
  assert (Hrel : reliable w) by (repeat constructor).
  assert (Hst : stored w <> Some JsonOther) by (vm_compute; congruence).
  destruct (createEvent_online_sent e w Hon Hrel Hst)
    as (r & w' & H1 & H2 & H3 & H4 & H5 & H6 & _ & H8 & _).
  exists r, w'. repeat split; try assumption.
Defined.

(** X9 (createEvent, online, the save fails).  With a connection reported,
    when the save of the SENT copy throws and the two store calls of the
    second save go through, [createEvent] returns the object of the caller
    with status FAILED, retry counter 1 and the message of the error (or
    'Failed to sync' when that is empty) as [lastSyncError], and that is
    what is stored under its [id]. *)
Theorem createEvent_failure_recorded (e : Event) (w w1 : World) (err : Exn) :
  online w ->
  EventLocalDataSource.saveEvent (set_syncAttempts 0 (set_status SENT e)) w
    = (Throw err, w1) ->
  stored w <> Some JsonOther ->
  nextFault w1 = None ->
  nextFault (spend w1) = None ->
  exists f w',
    createEvent e w = (Ok (mkReturned f f), w') /\
    status f = FAILED /\
    syncAttempts f = 1%Z /\
    lastSyncError f = Some (message_or err "Failed to sync") /\
    sameDetails f e /\
    storedEvent (id e) w' = Some (toJSON f).
Proof.
  intros Hon Hfirst Hst H0 H1.
  set (f := set_lastSyncError (Some (message_or err "Failed to sync"))
              (set_syncAttempts 1 (set_status FAILED e))).
  assert (Hsame : storage w1 = storage w).
  { pose proof (saveEvent_throws_untouched
                  (set_syncAttempts 0 (set_status SENT e)) w err) as H.
    rewrite Hfirst in H. by apply H. }
  assert (exists l, storedEvents w1 = Some l) as [l Hl].
  { rewrite (storedEvents_storage _ _ Hsame). unfold storedEvents.
    destruct (stored w) as [[| | |l]|]; try congruence; eauto. }
  exists f, (write (JsonArray (upsert (toJSON f) l)) (spend (spend w1))).
  split.
  { unfold createEvent, bind at 1. rewrite (online_isConnected w Hon).
    unfold try_catch, bind. rewrite Hfirst. fold f.
    by rewrite (saveEvent_goes_through f w1 l H0 H1 Hl). }
  simpl. repeat split.
  unfold storedEvent. rewrite storedEvents_write, lookupEvent_upsert. simpl.
  by rewrite String.eqb_refl.
Qed.

Lemma createEvent_failure_recorded_witness :
  let e := sampleEvent "n" PENDING 0 None in
  let w := sampleWorld (Some true)
             (Some (JSON_stringify [sampleEvent "a" SENT 0 None]))
             [None; Some "disk full"] in
  exists f w',
    createEvent e w = (Ok (mkReturned f f), w') /\
    status f = FAILED /\
    syncAttempts f = 1%Z /\
    lastSyncError f = Some "disk full" /\
    storedEvent "n" w' = Some (toJSON f).
Proof.
  intros e w.
  assert (Hst : stored w <> Some JsonOther) by (vm_compute; congruence).
  destruct (createEvent_failure_recorded e w
              (sampleWorld (Some true)
                 (Some (JSON_stringify [sampleEvent "a" SENT 0 None])) [])
              (Rejected "disk full") eq_refl eq_refl Hst eq_refl eq_refl)
    as (f & w' & H1 & H2 & H3 & H4 & _ & H6).
  exists f, w'. repeat split; assumption.
Defined.

(** X10 (createEvent and updateEvent, every connectivity report and every
    outcome of the store calls).  A call that returns has stored what it
    returns under the [id] of the event it was given; a call that throws
    has left the store as it was. *)
Theorem createEvent_updateEvent_all_or_nothing (e : Event) (w : World) :
  storedOrUntouched e w (createEvent e w) /\
  storedOrUntouched e w (updateEvent e w).
Proof.
  assert (Hsave : forall e' w0,
            match EventLocalDataSource.saveEvent e' w0 with
            | (Ok _, w') => storedEvent (id e') w' = Some (toJSON e')
            | (Throw _, w') => storage w' = storage w0
            end).
  { intros e' w0.
    pose proof (saveEvent_ok_stored e' w0) as Hok.
    pose proof (saveEvent_throws_untouched e' w0) as Hthrow.
    destruct (EventLocalDataSource.saveEvent e' w0) as [[[]|err] w']; simpl in *.
    - by apply Hok.
    - by apply (Hthrow err). }
  split.
  - unfold storedOrUntouched, createEvent, bind, try_catch, NetworkInfo.isConnected.
    destruct (default false (netState w)).
    + pose proof (Hsave (set_syncAttempts 0 (set_status SENT e)) w) as H1.
      destruct (EventLocalDataSource.saveEvent _ w) as [[u|err] w1]; simpl; [done|].
      match goal with
      | |- context [EventLocalDataSource.saveEvent ?f w1] =>
          pose proof (Hsave f w1) as H2;
          destruct (EventLocalDataSource.saveEvent f w1) as [[u|err'] w2]
      end; simpl in *; [done | congruence].
    + pose proof (Hsave (set_syncAttempts 0 (set_status PENDING e)) w) as H1.
      by destruct (EventLocalDataSource.saveEvent _ w) as [[u|err] w1].
  - unfold storedOrUntouched, updateEvent, bind, try_catch, NetworkInfo.isConnected,
      print.
    destruct (default false (netState w)).
    + pose proof (Hsave (set_syncAttempts 0 (set_status SENT e)) w) as H1.
      destruct (EventLocalDataSource.saveEvent _ w) as [[u|err] w1]; simpl; [done|].
      match goal with
      | |- context [EventLocalDataSource.saveEvent ?f ?w1'] =>
          pose proof (Hsave f w1') as H2;
          destruct (EventLocalDataSource.saveEvent f w1') as [[u|err'] w2]
      end; simpl in *; [done | congruence].
    + pose proof (Hsave (set_status PENDING e) w) as H1.
      by destruct (EventLocalDataSource.saveEvent _ w) as [[u|err] w1].
Qed.

(** X11 (updateEvent, online, the save goes through).  With a connection
    reported and the store calls going through, [updateEvent] returns and
    stores a copy with status SENT and a zero retry counter.  The copy was
    taken before [lastSyncError] is cleared: the stored event keeps the
    [lastSyncError] it was given, and the empty string lands on the object
    of the caller only, whose status and counter stay as given. *)
Theorem updateEvent_online_sent (e : Event) (w : World) :
  online w ->
  reliable w ->
  stored w <> Some JsonOther ->
  exists r w',
    updateEvent e w = (Ok r, w') /\
    returned r = set_syncAttempts 0 (set_status SENT e) /\
    argument r = set_lastSyncError (Some "") e /\
    status (returned r) = SENT /\
    syncAttempts (returned r) = 0%Z /\
    lastSyncError (returned r) = lastSyncError e /\
    sameDetails (returned r) e /\
    storedEvent (id e) w' = Some (toJSON (returned r)) /\
    console w' = console w.
Proof.
  intros Hon Hrel Hst.
  set (e' := set_syncAttempts 0 (set_status SENT e)).
  destruct (saveEvent_reliable e' w Hrel Hst) as (l & Hl & Hsave).
  exists (mkReturned e' (set_lastSyncError (Some "") e)),
         (write (JsonArray (upsert (toJSON e') l)) (spend (spend w))).
  split.
  { unfold updateEvent, bind at 1. rewrite (online_isConnected w Hon).
    unfold try_catch, bind. fold e'. by rewrite Hsave. }
  simpl. repeat split.
  unfold storedEvent. rewrite storedEvents_write, lookupEvent_upsert. simpl.
  by rewrite String.eqb_refl.
Qed.

Lemma updateEvent_online_sent_witness :
  let e := sampleEvent "a" FAILED 3 (Some "timeout") in
  let w := sampleWorld (Some true) (Some (JSON_stringify [e])) [] in
  exists r w',
    updateEvent e w = (Ok r, w') /\
    status (returned r) = SENT /\
    syncAttempts (returned r) = 0%Z /\
    lastSyncError (returned r) = Some "timeout" /\
    lastSyncError (argument r) = Some "" /\
    storedEvent "a" w' = Some (toJSON (returned r)).
Proof.
  intros e w.
  assert (Hon : online w) by reflexivity.
  assert (Hrel : reliable w) by constructor.
  assert (Hst : stored w <> Some JsonOther) by (vm_compute; congruence).
  destruct (updateEvent_online_sent e w Hon Hrel Hst)
    as (r & w' & H1 & H2 & H3 & H4 & H5 & H6 & _ & H8 & _).
  exists r, w'. repeat split; try assumption. by rewrite H3.
Defined.

(** X12 (updateEvent, online, the save fails).  With a connection reported,
    when the save of the SENT copy throws and the two store calls of the
    second save go through, [updateEvent] logs the error, and returns and
    stores the object of the caller with status FAILED, the retry counter
    it was given plus one but at most [MAX_RETRY_ATTEMPTS], and the message
    of the error as [lastSyncError]. *)
Theorem updateEvent_failure_recorded (e : Event) (w w1 : World) (err : Exn) :
  online w ->
  EventLocalDataSource.saveEvent (set_syncAttempts 0 (set_status SENT e)) w
    = (Throw err, w1) ->
  stored w <> Some JsonOther ->
  nextFault w1 = None ->
  nextFault (spend w1) = None ->
  exists f w',
    updateEvent e w = (Ok (mkReturned f f), w') /\
    status f = FAILED /\
    syncAttempts f = Z.min (syncAttempts e + 1) MAX_RETRY_ATTEMPTS /\
    lastSyncError f = Some (message_or err "Failed to sync") /\
    sameDetails f e /\
    storedEvent (id e) w' = Some (toJSON f) /\
    console w' = ConsoleError "Failed to update event:" err :: console w.
Proof.
  intros Hon Hfirst Hst H0 H1.
  set (f := set_lastSyncError (Some (message_or err "Failed to sync"))
              (set_syncAttempts (Z.min (syncAttempts e + 1) MAX_RETRY_ATTEMPTS)
                 (set_status FAILED (set_lastSyncError (Some "") e)))).
  assert (Hsame : storage w1 = storage w).
  { pose proof (saveEvent_throws_untouched
                  (set_syncAttempts 0 (set_status SENT e)) w err) as H.
    rewrite Hfirst in H. by apply H. }
  assert (Hcons : console w1 = console w).
  { pose proof (saveEvent_console (set_syncAttempts 0 (set_status SENT e)) w) as [H _].
    by rewrite Hfirst in H. }
  set (w1' := snd (print (ConsoleError "Failed to update event:" err) w1)).
  assert (exists l, storedEvents w1' = Some l) as [l Hl].
  { rewrite (storedEvents_storage w w1') by exact Hsame. unfold storedEvents.
    destruct (stored w) as [[| | |l]|]; try congruence; eauto. }
  exists f, (write (JsonArray (upsert (toJSON f) l)) (spend (spend w1'))).
  split.
  { unfold updateEvent, bind at 1. rewrite (online_isConnected w Hon).
    unfold try_catch. unfold bind at 1. rewrite Hfirst.
    unfold bind.
    change (print (ConsoleError "Failed to update event:" err) w1) with (Ok tt, w1').
    cbv iota beta.
    change (EventLocalDataSource.saveEvent _ w1')
      with (EventLocalDataSource.saveEvent f w1').
    by rewrite (saveEvent_goes_through f w1' l H0 H1 Hl). }
  simpl. repeat split.
  - unfold storedEvent. rewrite storedEvents_write, lookupEvent_upsert. simpl.
    by rewrite String.eqb_refl.
  - by rewrite Hcons.
Qed.

Lemma updateEvent_failure_recorded_witness :
  let e := sampleEvent "a" PENDING 7 None in
  let w := sampleWorld (Some true) (Some (JSON_stringify [e])) [Some "disk full"] in
  exists f w',
    updateEvent e w = (Ok (mkReturned f f), w') /\
    status f = FAILED /\
    syncAttempts f = 3%Z /\
    lastSyncError f = Some "disk full" /\
    storedEvent "a" w' = Some (toJSON f).
Proof.
  intros e w.
  assert (Hst : stored w <> Some JsonOther) by (vm_compute; congruence).
  destruct (updateEvent_failure_recorded e w
              (sampleWorld (Some true) (Some (JSON_stringify [e])) [])
              (Rejected "disk full") eq_refl eq_refl Hst eq_refl eq_refl)
    as (f & w' & H1 & H2 & H3 & H4 & _ & H6 & _).
  exists f, w'. repeat split; assumption.
Defined.

(** X13 (updateEvent, offline).  Without a connection reported and with the
    store calls going through, [updateEvent] sets the status to PENDING and
    nothing else: the retry counter and [lastSyncError] of the stored event
    are those it was given. *)
Theorem updateEvent_offline_pending (e : Event) (w : World) :
  netState w <> Some true ->
  reliable w ->
  stored w <> Some JsonOther ->
  exists w',
    updateEvent e w
      = (Ok (mkReturned (set_status PENDING e) (set_status PENDING e)), w') /\
    storedEvent (id e) w' = Some (toJSON (set_status PENDING e)) /\
    syncAttempts (set_status PENDING e) = syncAttempts e /\
    lastSyncError (set_status PENDING e) = lastSyncError e /\
    sameDetails (set_status PENDING e) e /\
    console w' = console w.
Proof.
  intros Hoff Hrel Hst.
  set (e' := set_status PENDING e).
  destruct (saveEvent_reliable e' w Hrel Hst) as (l & Hl & Hsave).
  exists (write (JsonArray (upsert (toJSON e') l)) (spend (spend w))).
  split.
  { unfold updateEvent, bind, NetworkInfo.isConnected.
    destruct (netState w) as [[|]|] eqn:Hnet; simpl; try congruence;
      fold e'; by rewrite Hsave. }
  simpl. repeat split.
  unfold storedEvent. rewrite storedEvents_write, lookupEvent_upsert. simpl.
  by rewrite String.eqb_refl.
Qed.

Lemma updateEvent_offline_pending_witness :
  let e := sampleEvent "a" FAILED 3 (Some "timeout") in
  let w := sampleWorld None (Some (JSON_stringify [sampleEvent "a" SENT 0 None])) [] in
  exists w',
    updateEvent e w
      = (Ok (mkReturned (set_status PENDING e) (set_status PENDING e)), w') /\
    storedEvent "a" w' = Some (toJSON (sampleEvent "a" PENDING 3 (Some "timeout"))).
Proof.
  intros e w.
  assert (Hoff : netState w <> Some true) by (vm_compute; congruence).
  assert (Hrel : reliable w) by constructor.
  assert (Hst : stored w <> Some JsonOther) by (vm_compute; congruence).
  destruct (updateEvent_offline_pending e w Hoff Hrel Hst) as (w' & H1 & H2 & _).
  exists w'. split; [exact H1 | exact H2].
Defined.

(** X14 (deleteEvent of the repository).  [deleteEvent] never throws, and
    whatever the connectivity report and the outcomes of the store calls,
    the stored event of any other [id] is after the call what it was
    before. *)
Theorem deleteEvent_never_throws (i : string) (w : World) :
  fst (deleteEvent i w) = Ok tt /\
  (forall k, k <> i -> storedEvent k (snd (deleteEvent i w)) = storedEvent k w).
Proof.
  split.
  - unfold deleteEvent, bind, NetworkInfo.isConnected.
    destruct (default false (netState w)); [|done].
    apply try_catch_total. done.
  - intros k Hk.
    unfold deleteEvent, bind, try_catch, NetworkInfo.isConnected.
    destruct (default false (netState w)); [|done].
    rewrite deleteEvent_result.
    destruct (nextFault w); [done|].
    destruct (storedEvents w) as [l|] eqn:Hl; [|done].
    destruct (nextFault (spend w)); [done|]. simpl.
    unfold storedEvent. rewrite storedEvents_write, Hl, lookupEvent_removeId.
    assert (String.eqb k i = false) as -> by (by apply String.eqb_neq).
    reflexivity.
Qed.

Lemma deleteEvent_never_throws_witness :
  let a := sampleEvent "a" SENT 0 None in
  let b := sampleEvent "b" PENDING 0 None in
  let w := sampleWorld (Some true) (Some (JSON_stringify [a; b])) [None; Some "disk full"] in
  fst (deleteEvent "a" w) = Ok tt /\
  storedEvent "b" (snd (deleteEvent "a" w)) = Some (toJSON b).
Proof.
  intros a b w.
  destruct (deleteEvent_never_throws "a" w) as [H1 H2].
  split; [exact H1|]. rewrite (H2 "b"); [reflexivity|]. vm_compute. congruence.
Defined.

(** X15 (deleteEvent of the repository, online).  With a connection
    reported: when the store calls go through, no event with the [id] is
    stored afterwards and nothing is printed; when the deletion throws,
    [deleteEvent] still returns, the store is as it was, so the event is
    still stored, and the only trace is a warning on the console. *)
Theorem deleteEvent_online (i : string) (w : World) :
  online w ->
  (reliable w -> stored w <> Some JsonOther ->
   storedEvent i (snd (deleteEvent i w)) = None /\
   console (snd (deleteEvent i w)) = console w) /\
  (forall err w1,
     EventLocalDataSource.deleteEvent i w = (Throw err, w1) ->
     fst (deleteEvent i w) = Ok tt /\
     storage (snd (deleteEvent i w)) = storage w /\
     console (snd (deleteEvent i w))
       = ConsoleWarn "Failed to delete event from server:" (Some err) :: console w).
Proof.
  intros Hon.
  assert (Hrun : deleteEvent i w =
            try_catch (EventLocalDataSource.deleteEvent i)
              (fun error =>
                 print (ConsoleWarn "Failed to delete event from server:" (Some error)))
              w).
  { unfold deleteEvent, bind at 1. by rewrite (online_isConnected w Hon). }
  rewrite Hrun. unfold try_catch. split.
  - intros Hrel Hst. rewrite deleteEvent_result.
    rewrite (reliable_nextFault w Hrel).
    rewrite (reliable_nextFault (spend w) (reliable_spend w Hrel)).
    assert (exists l, storedEvents w = Some l) as [l ->].
    { unfold storedEvents. destruct (stored w) as [[| | |l]|]; try congruence; eauto. }
    simpl. split; [|done].
    unfold storedEvent. rewrite storedEvents_write, lookupEvent_removeId.
    by rewrite String.eqb_refl.
  - intros err w1 Hdel. rewrite Hdel. simpl.
    rewrite deleteEvent_result in Hdel.
    destruct (nextFault w); [by injection Hdel as _ <-|].
    destruct (storedEvents w); [|by injection Hdel as _ <-].
    destruct (nextFault (spend w)); [by injection Hdel as _ <-|done].
Qed.

Lemma deleteEvent_online_witness :
  let a := sampleEvent "a" SENT 0 None in
  let w := sampleWorld (Some true) (Some (JSON_stringify [a])) [] in
  let w_bad := sampleWorld (Some true) (Some (JSON_stringify [a])) [None; Some "disk full"] in
  storedEvent "a" (snd (deleteEvent "a" w)) = None /\
  fst (deleteEvent "a" w_bad) = Ok tt /\
  storedEvent "a" (snd (deleteEvent "a" w_bad)) = Some (toJSON a) /\
  console (snd (deleteEvent "a" w_bad))
    = [ConsoleWarn "Failed to delete event from server:" (Some (Rejected "disk full"))].
Proof.
  intros a w w_bad.
  assert (Hrel : reliable w) by constructor.
  assert (Hst : stored w <> Some JsonOther) by (vm_compute; congruence).
  destruct (deleteEvent_online "a" w eq_refl) as [H _].
  destruct (H Hrel Hst) as [H1 _].
  destruct (deleteEvent_online "a" w_bad eq_refl) as [_ H'].
  destruct (H' (Rejected "disk full")
               (sampleWorld (Some true) (Some (JSON_stringify [a])) []) eq_refl)
    as (H2 & _ & H4).
  split; [exact H1|]. split; [exact H2|]. split; [reflexivity | exact H4].
Defined.

(** * Further properties of the reconciliation pass *)

(** An invariant of the store is kept by [syncEvents] when each iteration
    of the loop keeps it; what is known of the events of the loop is what
    the invariant tells of the array they were read from. *)
Lemma syncEvents_invariant (I : World -> Prop) (E : Event -> Prop) :
  (forall w w', storage w' = storage w -> I w -> I w') ->
  (forall e, E e -> hoare I (syncEvent e) (fun _ => I)) ->
  (forall w l, I w -> storedEvents w = Some l -> Forall E (snapshot l)) ->
  hoare I syncEvents (fun _ => I).
Proof.
  intros HI Hbody Hsnap. unfold syncEvents.
  apply inv_bind; [by apply inv_isConnected|]. intros [|]; simpl;
    [|by apply inv_print].
  apply inv_try_catch; [|intros err; by apply inv_print].
  eapply hoare_bind; [apply (inv_getEvents I HI) | | by intros e w0 [H _]].
  intros [l|] w0 [Hw Hl]; [|exact Hw].
  destruct (Hl l eq_refl) as (l0 & Hl0 & ->).
  change (I (snd (forEach syncEvent (snapshot l0) w0))).
  apply (inv_forEach I syncEvent E); [exact Hbody | by eapply Hsnap | exact Hw].
Qed.

(** An iteration keeps an invariant of the store that its two saves keep. *)
Lemma syncEvent_invariant (I : World -> Prop) (e : Event) :
  (forall w w', storage w' = storage w -> I w -> I w') ->
  (forall e', id e' = id e -> sameDetails e' e ->
              hoare I (EventLocalDataSource.saveEvent e') (fun _ => I)) ->
  hoare I (syncEvent e) (fun _ => I).
Proof.
  intros HI Hsave. unfold syncEvent.
  destruct (MAX_RETRY_ATTEMPTS <=? syncAttempts e)%Z; [by apply inv_print|].
  apply inv_try_catch; [|intros err];
    (apply inv_bind; [|intros; by apply inv_print]); apply Hsave;
    try reflexivity; try (by unfold sameDetails).
  - by destruct (MAX_RETRY_ATTEMPTS <=? _)%Z.
  - destruct (MAX_RETRY_ATTEMPTS <=? _)%Z; by unfold sameDetails.
Qed.

Lemma lookupEvent_In {T} (i : string) (l : list (EventOf T)) :
  In i (map id l) -> exists x, lookupEvent i l = Some x.
Proof.
  induction l as [|x l IH]; [done|]. unfold lookupEvent in *. simpl.
  destruct (String.eqb (id x) i) eqn:Hx; [by eauto|].
  intros [H|H]; [|by apply IH]. apply String.eqb_neq in Hx. congruence.
Qed.

Lemma lookupEvent_Some {T} (i : string) (x : EventOf T) (l : list (EventOf T)) :
  lookupEvent i l = Some x -> In x l /\ id x = i.
Proof.
  unfold lookupEvent. intros H. apply find_some in H as [H1 H2].
  split; [exact H1 | by apply String.eqb_eq].
Qed.

(** X16 (syncEvents, every connectivity report and every outcome of the
    store calls).  A pass neither adds an event to the stored collection
    nor removes one, and keeps the order: the list of the [id]s of the
    stored events is after the pass what it was before. *)
Theorem syncEvents_keeps_ids (w : World) (l : list JsonEvent) :
  storedEvents w = Some l ->
  exists l',
    storedEvents (snd (syncEvents w)) = Some l' /\
    map id l' = map id l.
Proof.
  intros Hl.
  set (I := fun w0 => exists l', storedEvents w0 = Some l' /\ map id l' = map id l).
  assert (HI : forall w0 w', storage w' = storage w0 -> I w0 -> I w').
  { intros w0 w' H (l' & H1 & H2). exists l'.
    by rewrite (storedEvents_storage _ _ H). }
  enough (Hh : hoare I syncEvents (fun _ => I)) by (apply Hh; by exists l).
  apply (syncEvents_invariant I (fun e => In (id e) (map id l)) HI).
  - intros e He. apply (syncEvent_invariant I e HI).
    intros e' Hid _ w0 (l' & Hl' & Hids).
    rewrite saveEvent_spelled_out. unfold saveEvent_result.
    destruct (nextFault w0); [by exists l'|]. rewrite Hl'.
    destruct (nextFault (spend w0)); [by exists l'|]. simpl.
    exists (upsert (toJSON e') l'). split; [apply storedEvents_write|].
    rewrite (ids_upsert_list (toJSON e') l'). simpl. rewrite Hid.
    assert (exists x, lookupEvent (id e) l' = Some x) as [x ->]; [|exact Hids].
    apply lookupEvent_In. by rewrite Hids.
  - intros w0 l0 (l' & Hl' & Hids) Hl0. apply Forall_forall. intros e He.
    apply list_elem_of_In, snapshot_ids in He. congruence.
Qed.

Lemma syncEvents_keeps_ids_witness :
  let a := toJSON (sampleEvent "a" PENDING 0 None) in
  let b := toJSON (sampleEvent "b" FAILED 2 (Some "timeout")) in
  let c := toJSON (sampleEvent "c" SENT 0 None) in
  let w := sampleWorld (Some true) (Some (JsonArray [a; b; c; a]))
             [None; None; None; None; Some "disk full"] in
  exists l',
    storedEvents (snd (syncEvents w)) = Some l' /\
    map id l' = ["a"; "b"; "c"; "a"].
Proof.
  intros a b c w.
  exact (syncEvents_keeps_ids w [a; b; c; a] eq_refl).
Defined.

(** X17 (syncEvents, every connectivity report and every outcome of the
    store calls).  When the stored [id]s are pairwise different, a pass
    writes nothing but the three synchronisation fields: each stored event
    is still stored afterwards, and agrees with what it was on every field
    but [status], [syncAttempts] and [lastSyncError]. *)
Theorem syncEvents_keeps_details (i : string) (j : JsonEvent) (w : World) :
  uniqueIds w ->
  storedEvent i w = Some j ->
  exists j',
    storedEvent i (snd (syncEvents w)) = Some j' /\
    sameDetails j' j.
Proof.
  intros Hu Hj.
  set (I := fun w0 => uniqueIds w0 /\
                      exists j', storedEvent i w0 = Some j' /\ sameDetails j' j).
  assert (HI : forall w0 w', storage w' = storage w0 -> I w0 -> I w').
  { intros w0 w' H [H1 (j' & H2 & H3)]. split; [by eapply uniqueIds_storage|].
    exists j'. by rewrite (storedEvent_storage _ _ _ H). }
  assert (Hrefl : sameDetails j j) by (by unfold sameDetails).
  enough (Hh : hoare I syncEvents (fun _ => I)).
  { apply (Hh w). split; [exact Hu|]. by exists j. }
  apply (syncEvents_invariant I
           (fun e => id e = i -> sameDetails (toJSON e) j) HI).
  - intros e He. apply (syncEvent_invariant I e HI).
    intros e' Hid Hsame w0 [Hu0 (j' & Hj' & Hd)]. split.
    { by apply saveEvent_uniqueIds. }
    destruct (decide (id e = i)) as [Hi|Hi].
    + rewrite saveEvent_spelled_out. unfold saveEvent_result.
      destruct (nextFault w0); [by exists j'|].
      unfold storedEvent in Hj'. unfold storedEvent at 1.
      destruct (storedEvents w0) as [l0|] eqn:Hl0; [|done].
      destruct (nextFault (spend w0)); simpl.
      { exists j'. change (storedEvents (spend (spend w0))) with (storedEvents w0).
        by rewrite Hl0. }
      exists (toJSON e'). split.
      * rewrite storedEvents_write, lookupEvent_upsert. simpl.
        assert (String.eqb (id e') i = true) as ->
          by (apply String.eqb_eq; congruence).
        reflexivity.
      * specialize (He Hi). unfold sameDetails in *. destruct e, e'; simpl in *.
        intuition congruence.
    + exists j'. split; [|exact Hd].
      apply (saveEvent_frame i (Some j') e'); [congruence | exact Hj'].
  - intros w0 l0 [Hu0 (j' & Hj' & Hd)] Hl0. apply Forall_forall. intros e He Hid.
    apply list_elem_of_In, filter_In in He as [He _].
    apply in_map_iff in He as (j0 & <- & Hj0).
    unfold uniqueIds, storedEvent in *. rewrite Hl0 in *.
    rewrite toJSON_fromJSON.
    by rewrite (lookupEvent_unique i j' j0 l0 Hu0 Hj' Hj0 Hid).
Qed.

Lemma syncEvents_keeps_details_witness :
  let a := toJSON (sampleEvent "a" PENDING 0 None) in
  let b := toJSON (sampleEvent "b" FAILED 2 (Some "timeout")) in
  let w := sampleWorld (Some true) (Some (JsonArray [a; b]))
             [None; None; None; None; Some "disk full"] in
  exists b',
    storedEvent "b" (snd (syncEvents w)) = Some b' /\
    sameDetails b' b.
Proof.
  intros a b w.
  assert (Hu : uniqueIds w).
  { apply (bool_decide_unpack _). vm_compute. exact I. }
  exact (syncEvents_keeps_details "b" b w Hu eq_refl).
Defined.

(** X18 (syncEvents, every connectivity report and every outcome of the
    store calls).  When the stored [id]s are pairwise different, a pass
    leaves a settled event exactly as it is stored: an event with status
    SENT, and an event whose retry counter reached [MAX_RETRY_ATTEMPTS]. *)
Theorem syncEvents_leaves_settled (i : string) (j : JsonEvent) (w : World) :
  uniqueIds w ->
  storedEvent i w = Some j ->
  status j = SENT \/ (MAX_RETRY_ATTEMPTS <= syncAttempts j)%Z ->
  storedEvent i (snd (syncEvents w)) = Some j.
Proof.
  intros Hu Hj Hsettled.
  set (I := fun w0 => uniqueIds w0 /\ storedEvent i w0 = Some j).
  assert (HI : forall w0 w', storage w' = storage w0 -> I w0 -> I w').
  { intros w0 w' H [H1 H2]. split; [by eapply uniqueIds_storage|].
    by rewrite (storedEvent_storage _ _ _ H). }
  enough (Hh : hoare I syncEvents (fun _ => I)) by (by apply (Hh w)).
  apply (syncEvents_invariant I
           (fun e => id e <> i \/ (MAX_RETRY_ATTEMPTS <= syncAttempts e)%Z) HI).
  - intros e He w0 [Hu0 Hj0]. split.
    + by apply syncEvent_uniqueIds.
    + by apply (syncEvent_frame i (Some j) e He).
  - intros w0 l0 [Hu0 Hj0] Hl0. apply Forall_forall. intros e He.
    apply list_elem_of_In, filter_In in He as [He Hsel].
    apply in_map_iff in He as (j0 & <- & Hin).
    destruct (decide (id j0 = i)) as [Hid|Hid]; [|by left].
    unfold uniqueIds, storedEvent in *. rewrite Hl0 in *.
    rewrite (lookupEvent_unique i j j0 l0 Hu0 Hj0 Hin Hid) in *.
    destruct Hsettled as [Hs|Hmax]; [|by right].
    unfold pendingOrFailed in Hsel. simpl in Hsel. by rewrite Hs in Hsel.
Qed.

Lemma syncEvents_leaves_settled_witness :
  let a := toJSON (sampleEvent "a" PENDING 0 None) in
  let c := toJSON (sampleEvent "c" SENT 0 (Some "timeout")) in
  let w := sampleWorld (Some true) (Some (JsonArray [a; c])) [None; Some "disk full"] in
  storedEvent "c" (snd (syncEvents w)) = Some c.
Proof.
  intros a c w.
  assert (Hu : uniqueIds w).
  { apply (bool_decide_unpack _). vm_compute. exact I. }
  apply (syncEvents_leaves_settled "c" c w Hu eq_refl). by left.
Defined.

Lemma upsert_app_same {T} (e x : EventOf T) (l1 l2 : list (EventOf T)) :
  id x = id e ->
  ~ In (id e) (map id l1) ->
  upsert e (l1 ++ x :: l2) = (l1 ++ e :: l2)%list.
Proof.
  intros Hx. induction l1 as [|y l1 IH]; simpl; intros Hnot.
  - rewrite upsert_cons. by rewrite Hx, String.eqb_refl.
  - rewrite upsert_cons.
    destruct (String.eqb (id y) (id e)) eqn:Hy.
    + apply String.eqb_eq in Hy. exfalso. apply Hnot. by left.
    + f_equal. apply IH. intros H. apply Hnot. by right.
Qed.

Lemma reconcile_not_eligible (j : JsonEvent) : eligible (reconcile j) = false.
Proof.
  unfold reconcile. destruct (eligible j) eqn:H; [|exact H]. reflexivity.
Qed.

(** The loop over the rest of the array when every store call goes
    through: the events before are as the loop left them, the events of
    the rest get reconciled. *)
Lemma loop_reliable (todo pre : list JsonEvent) (w : World) :
  reliable w ->
  storedEvents w = Some (pre ++ todo)%list ->
  NoDup (map id (pre ++ todo)) ->
  exists w',
    forEach syncEvent (snapshot todo) w = (Ok tt, w') /\
    reliable w' /\
    storedEvents w' = Some (pre ++ map reconcile todo)%list.
Proof.
  revert pre w. induction todo as [|j todo IH]; intros pre w Hrel Hst Hnd.
  - exists w. by rewrite app_nil_r in *.
  - assert (Hnext : forall x w1,
              id x = id j -> reliable w1 ->
              storedEvents w1 = Some (pre ++ x :: todo)%list ->
              exists w', forEach syncEvent (snapshot todo) w1 = (Ok tt, w') /\
                         reliable w' /\
                         storedEvents w' = Some (pre ++ x :: map reconcile todo)%list).
    { intros x w1 Hx Hrel1 Hst1.
      destruct (IH (pre ++ [x])%list w1 Hrel1) as (w' & H1 & H2 & H3).
      - by rewrite <- app_assoc.
      - rewrite <- app_assoc. simpl.
        rewrite map_app in *. simpl in *. by rewrite Hx.
      - exists w'. rewrite <- app_assoc in H3. by simpl in H3. }
    unfold snapshot. simpl map. simpl List.filter. fold (snapshot todo).
    unfold reconcile at 1. unfold eligible.
    destruct (pendingOrFailed (fromJSON j)) eqn:Hsel; simpl andb;
      [|by apply Hnext].
    simpl forEach. unfold bind. rewrite syncEvent_spelled_out.
    unfold syncEvent_result. simpl syncAttempts.
    rewrite Z.leb_antisym.
    destruct (syncAttempts j <? MAX_RETRY_ATTEMPTS)%Z eqn:Hlt; simpl negb; cbv iota.
    + rewrite (saveEvent_goes_through _ w (pre ++ j :: todo))
        by (by auto using reliable_nextFault, reliable_spend).
      set (w1 := write _ _).
      assert (Hrel1 : reliable w1)
        by (by apply reliable_write, reliable_spend, reliable_spend).
      assert (Hst1 : storedEvents w1
                     = Some (pre ++ set_syncAttempts 0 (set_status SENT j) :: todo)%list).
      { unfold w1. rewrite storedEvents_write. f_equal.
        replace (toJSON (syncedEvent (fromJSON j)))
          with (set_syncAttempts 0 (set_status SENT j)) by (by destruct j).
        apply upsert_app_same; [done|].
        rewrite map_app in Hnd. simpl in Hnd.
        apply NoDup_app in Hnd as (_ & Hnd & _). intros Hin.
        apply (Hnd (id j)); [by apply list_elem_of_In | by left]. }
      match goal with
      | |- context [print ?line w1] =>
          destruct (Hnext (set_syncAttempts 0 (set_status SENT j))
                          (snd (print line w1)) eq_refl Hrel1 Hst1)
            as (w' & H1 & H2 & H3)
      end.
      exists w'. split; [exact H1 | by split].
    + match goal with
      | |- context [print ?line w] =>
          destruct (Hnext j (snd (print line w)) eq_refl Hrel Hst)
            as (w' & H1 & H2 & H3)
      end.
      exists w'. split; [exact H1 | by split].
Qed.

(** X19 (syncEvents, online, every store call going through).  When the
    stored text is an array of events with pairwise different [id]s, a pass
    turns every pending or failed event whose retry counter is under the
    maximum into a SENT event with a zero counter, and leaves the others
    and the order as they are.  After it nothing is left to retry: a
    further pass leaves the store as it is, whatever the connectivity
    report and the outcomes of the store calls. *)
Theorem syncEvents_reconciles_all (w : World) (l : list JsonEvent) :
  online w ->
  reliable w ->
  stored w = Some (JsonArray l) ->
  NoDup (map id l) ->
  let w' := snd (syncEvents w) in
  stored w' = Some (JsonArray (map reconcile l)) /\
  (forall net outcomes,
     storage (snd (syncEvents (mkWorld net (storage w') outcomes (console w'))))
       = storage w').
Proof.
  intros Hon Hrel Hst Hnd w'.
  assert (Hl : storedEvents w = Some l) by (unfold storedEvents; by rewrite Hst).
  assert (Hl' : storedEvents w' = Some (map reconcile l)).
  { subst w'.
    rewrite (syncEvents_online_run w l Hon (reliable_nextFault w Hrel) Hl).
    destruct (loop_reliable l [] (spend w)) as (w1 & H1 & _ & H3);
      [by apply reliable_spend | exact Hl | exact Hnd |].
    unfold try_catch. by rewrite H1. }
  assert (Hstored : stored w' = Some (JsonArray (map reconcile l))).
  { assert (Hkeep : stored w' = Some (JsonArray l) \/
                    exists l1, stored w' = Some (JsonArray l1)).
    { set (I := fun w0 => exists l1, stored w0 = Some (JsonArray l1)).
      assert (HI : forall w0 w1, storage w1 = storage w0 -> I w0 -> I w1).
      { intros w0 w1 H (l1 & H1). exists l1. unfold stored in *. by rewrite H. }
      right. apply (syncEvents_invariant I (fun _ => True) HI).
      - intros e _. apply (syncEvent_invariant I e HI).
        intros e' _ _ w0 (l1 & H1).
        rewrite saveEvent_spelled_out. unfold saveEvent_result.
        destruct (nextFault w0); [by exists l1|].
        destruct (storedEvents w0); [|by exists l1].
        destruct (nextFault (spend w0)); [by exists l1|]. simpl.
        eexists. apply stored_write.
      - intros. by apply Forall_forall.
      - by exists l. }
    destruct Hkeep as [H|(l1 & H)];
      unfold storedEvents in Hl'; rewrite H in Hl'; congruence. }
  split; [exact Hstored|].
  intros net outcomes.
  set (w2 := mkWorld net (storage w') outcomes (console w')).
  set (I := fun w0 => storage w0 = storage w').
  assert (HI : forall w0 w1, storage w1 = storage w0 -> I w0 -> I w1).
  { intros w0 w1 H H0. unfold I in *. congruence. }
  enough (Hh : hoare I syncEvents (fun _ => I)) by (by apply (Hh w2)).
  apply (syncEvents_invariant I
           (fun e => (MAX_RETRY_ATTEMPTS <= syncAttempts e)%Z) HI).
  - intros e He. unfold syncEvent.
    apply Z.leb_le in He. rewrite He. by apply inv_print.
  - intros w0 l0 Hw0 Hl0.
    rewrite (storedEvents_storage w' w0 Hw0), Hl' in Hl0.
    injection Hl0 as <-. apply Forall_forall. intros e He.
    apply list_elem_of_In, filter_In in He as [He Hsel].
    apply in_map_iff in He as (j0 & <- & Hin).
    apply in_map_iff in Hin as (j1 & <- & _).
    pose proof (reconcile_not_eligible j1) as Hne. unfold eligible in Hne.
    rewrite Hsel in Hne. simpl in Hne. apply Z.ltb_ge in Hne. exact Hne.
Qed.

Lemma syncEvents_reconciles_all_witness :
  let a := toJSON (sampleEvent "a" PENDING 0 None) in
  let b := toJSON (sampleEvent "b" FAILED 3 (Some "timeout")) in
  let c := toJSON (sampleEvent "c" FAILED 2 (Some "timeout")) in
  let d := toJSON (sampleEvent "d" SENT 0 None) in
  let w := sampleWorld (Some true) (Some (JsonArray [a; b; c; d])) [] in
  let w' := snd (syncEvents w) in
  stored w'
    = Some (JsonArray [toJSON (sampleEvent "a" SENT 0 None); b;
                       toJSON (sampleEvent "c" SENT 0 (Some "timeout")); d]) /\
  storage (snd (syncEvents (mkWorld (Some true) (storage w') [None; Some "disk full"]
                                    (console w'))))
    = storage w'.
Proof.
  intros a b c d w w'.
  assert (Hrel : reliable w) by constructor.
  assert (Hnd : NoDup (map id [a; b; c; d])).
  { apply (bool_decide_unpack _). vm_compute. exact I. }
  destruct (syncEvents_reconciles_all w [a; b; c; d] eq_refl Hrel eq_refl Hnd)
    as [H1 H2].
  split; [exact H1 | apply H2].
Defined.

(** * The events slice *)

Lemma isPending_toJSON (e : Event) :
  EventSlice.isPending (toJSON e) = EventSlice.isPending e.
Proof. by destruct e. Qed.

Lemma pendingOf_cons {T} (x : EventOf T) (l : list (EventOf T)) :
  pendingOf (x :: l) = ((if EventSlice.isPending x then 1 else 0) + pendingOf l)%Z.
Proof.
  unfold pendingOf. simpl. destruct (EventSlice.isPending x); simpl length; lia.
Qed.

Lemma pendingOf_nonneg {T} (l : list (EventOf T)) : (0 <= pendingOf l)%Z.
Proof. unfold pendingOf. lia. Qed.

Lemma pendingOf_app {T} (l1 l2 : list (EventOf T)) :
  pendingOf (l1 ++ l2) = (pendingOf l1 + pendingOf l2)%Z.
Proof.
  unfold pendingOf. rewrite List.filter_app, length_app. lia.
Qed.

Lemma pendingOf_map_toJSON (l : list Event) :
  pendingOf (map toJSON l) = pendingOf l.
Proof.
  induction l as [|x l IH]; [done|].
  change (map toJSON (x :: l)) with (toJSON x :: map toJSON l).
  by rewrite (pendingOf_cons (toJSON x)), (pendingOf_cons x), isPending_toJSON, IH.
Qed.

(** Rewriting with a lookup in a list whose element type is written
    otherwise in the goal. *)
Ltac rewrite_lookup H :=
  match type of H with
  | _ = ?rhs =>
      match goal with
      | |- context [@lookup ?K ?A ?M ?inst ?n ?l] =>
          let E := fresh in
          assert (E : @lookup K A M inst n l = rhs) by exact H;
          rewrite E; clear E
      end
  end.

(** What [findIndex] finds is at the index it returns. *)
Lemma findIndex_lookup {A} (p : A -> bool) (l : list A) (n : nat) :
  findIndex p l = Some n ->
  exists x, l !! n = Some x /\ p x = true /\ List.find p l = Some x.
Proof.
  revert n. induction l as [|y l IH]; intros n; simpl; [done|].
  destruct (p y) eqn:Hy.
  - intros [= <-]. by exists y.
  - destruct (findIndex p l) as [m|]; [|done]. simpl. intros [= <-].
    destruct (IH m eq_refl) as (x & H1 & H2 & H3). by exists x.
Qed.

Lemma findIndex_None {A} (p : A -> bool) (l : list A) :
  findIndex p l = None <-> List.find p l = None.
Proof.
  induction l as [|y l IH]; simpl; [done|].
  destruct (p y); [done|].
  destruct (findIndex p l); simpl; [|tauto].
  split; [done|]. intros H. apply IH in H. done.
Qed.

Lemma pendingOf_insert {T} (l : list (EventOf T)) (n : nat) (old new : EventOf T) :
  l !! n = Some old ->
  pendingOf (<[n := new]> l) =
    (pendingOf l - (if EventSlice.isPending old then 1 else 0)
               + (if EventSlice.isPending new then 1 else 0))%Z.
Proof.
  revert n. induction l as [|y l IH]; intros [|n]; simpl; try done.
  - intros [= ->]. rewrite !pendingOf_cons. lia.
  - intros H. rewrite !pendingOf_cons, (IH n H). lia.
Qed.

Lemma removeId_absent {T} (i : string) (l : list (EventOf T)) :
  ~ In i (map id l) -> removeId i l = l.
Proof.
  induction l as [|x l IH]; [done|]. unfold removeId in *. simpl. intros H.
  destruct (String.eqb (id x) i) eqn:Hx.
  - apply String.eqb_eq in Hx. exfalso. apply H. by left.
  - simpl. f_equal. apply IH. intros Hin. apply H. by right.
Qed.

Lemma pendingOf_removeId {T} (i : string) (l : list (EventOf T)) :
  NoDup (map id l) ->
  pendingOf (removeId i l) =
    (pendingOf l - match lookupEvent i l with
                   | Some e => if EventSlice.isPending e then 1 else 0
                   | None => 0
                   end)%Z.
Proof.
  induction l as [|x l IH]; [done|]. simpl. intros Hnd.
  apply NoDup_cons in Hnd as [Hx Hnd].
  unfold removeId, lookupEvent in *. simpl.
  destruct (String.eqb (id x) i) eqn:Hxi; simpl.
  - apply String.eqb_eq in Hxi. subst i.
    fold (removeId (id x) l). rewrite removeId_absent.
    + rewrite pendingOf_cons. lia.
    + by rewrite <- list_elem_of_In.
  - rewrite !pendingOf_cons, (IH Hnd). lia.
Qed.

(** The events of the slice after the [updateEvent] reducer: the payload
    takes the place of the first event with its [id], if there is one. *)
Lemma updateEvent_events (payload : Event) (state : EventSlice.EventState) :
  EventSlice.events (EventSlice.updateEvent payload state) =
    match lookupEvent (id payload) (EventSlice.events state) with
    | Some _ => upsert (toJSON payload) (EventSlice.events state)
    | None => EventSlice.events state
    end.
Proof.
  unfold EventSlice.updateEvent, upsert, lookupEvent. simpl.
  match goal with
  | |- context [findIndex ?p ?l] => destruct (findIndex p l) as [n|] eqn:Hn
  end.
  - destruct (findIndex_lookup _ _ _ Hn) as (x & H1 & _ & H3).
    cbv beta iota. rewrite_lookup H1. simpl. by rewrite H3.
  - apply findIndex_None in Hn. by rewrite Hn.
Qed.

(** X20 (reducers setEvents, addEvent, updateEvent, removeEvent).
    [pendingCount] is the number of events of the slice with status
    PENDING: [setEvents] makes it so, [addEvent] and [updateEvent] keep it
    so, and [removeEvent] keeps it so when the [id]s of the slice are
    pairwise different.  With an [id] held twice it does not: after two
    [addEvent] of one pending event, [removeEvent] empties the list and
    leaves the counter at 1. *)
Theorem pendingCount_counts_pending :
  (forall payload state, countsPending (EventSlice.setEvents payload state)) /\
  (forall payload state,
     countsPending state -> countsPending (EventSlice.addEvent payload state)) /\
  (forall payload state,
     countsPending state -> countsPending (EventSlice.updateEvent payload state)) /\
  (forall i state,
     countsPending state ->
     NoDup (map id (EventSlice.events state)) ->
     countsPending (EventSlice.removeEvent i state)) /\
  (let e := sampleEvent "a" PENDING 0 None in
   let state := EventSlice.addEvent e (EventSlice.addEvent e EventSlice.initialState) in
   countsPending state /\
   EventSlice.events (EventSlice.removeEvent "a" state) = [] /\
   EventSlice.pendingCount (EventSlice.removeEvent "a" state) = 1%Z).
Proof.
  unfold countsPending. repeat split.
  - intros payload state. simpl. unfold EventSlice.serializeEvent.
    by rewrite pendingOf_map_toJSON.
  - intros payload state H. simpl. unfold EventSlice.serializeEvent.
    unfold JsonEvent.
    rewrite pendingOf_app, pendingOf_cons, isPending_toJSON, H.
    destruct (EventSlice.isPending payload); unfold pendingOf; simpl; lia.
  - intros payload state H. unfold EventSlice.updateEvent.
    match goal with
    | |- context [findIndex ?p ?l] => destruct (findIndex p l) as [n|] eqn:Hn
    end; [|exact H].
    destruct (findIndex_lookup _ _ _ Hn) as (old & H1 & _ & H3).
    cbv beta iota. rewrite_lookup H1. simpl. unfold EventSlice.serializeEvent.
    rewrite (pendingOf_insert _ n old _ H1), isPending_toJSON, H.
    assert (Hold : ((if EventSlice.isPending old then 1 else 0)
                      <= pendingOf (EventSlice.events state))%Z).
    { apply find_some in H3 as [Hin _]. apply in_split in Hin as (l1 & l2 & ->).
      rewrite pendingOf_app, pendingOf_cons.
      pose proof (pendingOf_nonneg l1). pose proof (pendingOf_nonneg l2). lia. }
    destruct (EventSlice.isPending old), (EventSlice.isPending payload);
      simpl; lia.
  - intros i state H Hnd. simpl.
    change (List.filter _ (EventSlice.events state))
      with (removeId i (EventSlice.events state)).
    rewrite (pendingOf_removeId i _ Hnd), H.
    change (List.find _ (EventSlice.events state))
      with (lookupEvent i (EventSlice.events state)).
    destruct (lookupEvent i (EventSlice.events state)) as [e|] eqn:He; [|lia].
    assert (Hold : ((if EventSlice.isPending e then 1 else 0)
                      <= pendingOf (EventSlice.events state))%Z).
    { apply find_some in He as [Hin _]. apply in_split in Hin as (l1 & l2 & ->).
      rewrite pendingOf_app, pendingOf_cons.
      pose proof (pendingOf_nonneg l1). pose proof (pendingOf_nonneg l2). lia. }
    destruct (EventSlice.isPending e); lia.
Qed.

Lemma pendingCount_counts_pending_witness :
  let a := sampleEvent "a" PENDING 0 None in
  let b := sampleEvent "b" FAILED 1 (Some "timeout") in
  let state := EventSlice.setEvents [a; b] EventSlice.initialState in
  countsPending state /\
  countsPending (EventSlice.addEvent (sampleEvent "c" PENDING 0 None) state) /\
  countsPending (EventSlice.updateEvent (sampleEvent "a" SENT 0 None) state) /\
  countsPending (EventSlice.removeEvent "a" state) /\
  EventSlice.pendingCount (EventSlice.removeEvent "a" state) = 0%Z.
Proof.
  intros a b state.
  destruct pendingCount_counts_pending as (H1 & H2 & H3 & H4 & _).
  assert (Hs : countsPending state) by apply H1.
  assert (Hnd : NoDup (map id (EventSlice.events state))).
  { apply (bool_decide_unpack _). vm_compute. exact I. }
  split; [exact Hs|]. split; [by apply H2|]. split; [by apply H3|].
  split; [by apply H4 | reflexivity].
Defined.

(** X21 (reducer updateEvent).  The reducer replaces, it does not insert:
    when no event of the slice has the [id] of the payload the state is
    unchanged, and otherwise the first event with that [id] becomes the
    serialised payload.  Either way the list of [id]s, and with it the
    number and order of the events, stays as it was. *)
Theorem updateEvent_replaces (payload : Event) (state : EventSlice.EventState) :
  (lookupEvent (id payload) (EventSlice.events state) = None ->
   EventSlice.updateEvent payload state = state) /\
  (lookupEvent (id payload) (EventSlice.events state) <> None ->
   lookupEvent (id payload) (EventSlice.events (EventSlice.updateEvent payload state))
     = Some (toJSON payload)) /\
  map id (EventSlice.events (EventSlice.updateEvent payload state))
    = map id (EventSlice.events state).
Proof.
  split; [|split].
  - intros H. unfold lookupEvent in H. apply findIndex_None in H.
    unfold EventSlice.updateEvent.
    match goal with
    | |- context [findIndex ?p ?l] => replace (findIndex p l) with (@None nat)
    end; done.
  - intros H. rewrite updateEvent_events.
    destruct (lookupEvent _ (EventSlice.events state)); [|done].
    rewrite lookupEvent_upsert. simpl. by rewrite String.eqb_refl.
  - rewrite updateEvent_events.
    destruct (lookupEvent _ (EventSlice.events state)) eqn:H; [|done].
    rewrite (ids_upsert_list (toJSON payload)). simpl. by rewrite H.
Qed.

Lemma updateEvent_replaces_witness :
  let a := sampleEvent "a" PENDING 0 None in
  let state := EventSlice.setEvents [a] EventSlice.initialState in
  EventSlice.updateEvent (sampleEvent "z" SENT 0 None) state = state /\
  lookupEvent "a" (EventSlice.events (EventSlice.updateEvent editedEvent state))
    = Some (toJSON editedEvent).
Proof.
  intros a state.
  destruct (updateEvent_replaces (sampleEvent "z" SENT 0 None) state) as (H1 & _ & _).
  destruct (updateEvent_replaces editedEvent state) as (_ & H2 & _).
  split; [by apply H1|]. apply H2. vm_compute. congruence.
Defined.

(** X22 (reducers addEvent, removeEvent).  Removing an event that was just
    added, under an [id] that no event of the slice had, gives back the
    state before the addition, the counter included as long as it was not
    negative. *)
Theorem addEvent_removeEvent (payload : Event) (state : EventSlice.EventState) :
  ~ In (id payload) (map id (EventSlice.events state)) ->
  (0 <= EventSlice.pendingCount state)%Z ->
  EventSlice.removeEvent (id payload) (EventSlice.addEvent payload state) = state.
Proof.
  intros Hnew Hc. destruct state as [l ld er ss c st]. simpl in *.
  unfold EventSlice.removeEvent, EventSlice.addEvent. simpl.
  unfold EventSlice.serializeEvent.
  match goal with
  | |- context [List.find ?p ?l'] =>
      assert (Hfind : List.find p l' = Some (toJSON payload))
  end.
  { clear Hc. induction l as [|x l IH]; simpl.
    - by rewrite String.eqb_refl.
    - destruct (String.eqb (id x) (id payload)) eqn:Hx.
      + apply String.eqb_eq in Hx. exfalso. apply Hnew. by left.
      + apply IH. intros H. apply Hnew. by right. }
  rewrite Hfind.
  match goal with
  | |- context [List.filter ?p ?l'] => assert (Hfilter : List.filter p l' = l)
  end.
  { unfold JsonEvent. rewrite List.filter_app. simpl. rewrite String.eqb_refl. simpl.
    rewrite app_nil_r. by apply (removeId_absent (id payload) l). }
  rewrite Hfilter, isPending_toJSON. f_equal.
  destruct (EventSlice.isPending payload); lia.
Qed.

Lemma addEvent_removeEvent_witness :
  let state := EventSlice.setEvents [sampleEvent "a" PENDING 0 None]
                 EventSlice.initialState in
  EventSlice.removeEvent "b"
    (EventSlice.addEvent (sampleEvent "b" PENDING 0 None) state) = state.
Proof.
  intros state.
  apply (addEvent_removeEvent (sampleEvent "b" PENDING 0 None) state).
  - vm_compute. intros [H|[]]. discriminate H.
  - vm_compute. discriminate.
Defined.

(** * MemoryStorage *)

Lemma multiSet_cons (item : string * string) (items : list (string * string))
    (store : gmap string string) :
  MemoryStorage.multiSet (item :: items) store
    = MemoryStorage.multiSet items (<[fst item := snd item]> store).
Proof. reflexivity. Qed.

Lemma multiSet_untouched (key : string) (items : list (string * string))
    (store : gmap string string) :
  ~ In key (map fst items) ->
  MemoryStorage.getItem key (MemoryStorage.multiSet items store)
    = MemoryStorage.getItem key store.
Proof.
  revert store. induction items as [|[k v] items IH]; intros store Hkey; [done|].
  rewrite multiSet_cons, IH by (intros H; apply Hkey; by right).
  unfold MemoryStorage.getItem. simpl. apply lookup_insert_ne.
  intros ->. apply Hkey. by left.
Qed.

Lemma multiSet_last_write (key value : string) (before after : list (string * string))
    (store : gmap string string) :
  ~ In key (map fst after) ->
  MemoryStorage.getItem key
    (MemoryStorage.multiSet (before ++ (key, value) :: after) store) = Some value.
Proof.
  revert store. induction before as [|item before IH]; intros store Hkey; simpl app.
  - rewrite multiSet_cons, multiSet_untouched by exact Hkey.
    unfold MemoryStorage.getItem. simpl. apply lookup_insert_eq.
  - rewrite multiSet_cons. by apply IH.
Qed.

(** X23 (MemoryStorage: multiSet, multiGet, getItem).  After [multiSet] a
    key reads as the value of the last pair that names it, and a key that
    no pair names reads as before.  When the keys of the pairs are pairwise
    different, [multiGet] of these keys returns the values in the order of
    the pairs. *)
Theorem multiSet_then_multiGet (items : list (string * string))
    (store : gmap string string) :
  (forall key, ~ In key (map fst items) ->
     MemoryStorage.getItem key (MemoryStorage.multiSet items store)
       = MemoryStorage.getItem key store) /\
  (forall before key value after,
     items = (before ++ (key, value) :: after)%list ->
     ~ In key (map fst after) ->
     MemoryStorage.getItem key (MemoryStorage.multiSet items store) = Some value) /\
  (NoDup (map fst items) ->
   MemoryStorage.multiGet (map fst items) (MemoryStorage.multiSet items store)
     = map (fun item => Some (snd item)) items).
Proof.
  split; [|split].
  - intros key. apply multiSet_untouched.
  - intros before key value after -> Hkey. by apply multiSet_last_write.
  - intros Hnd. unfold MemoryStorage.multiGet. rewrite map_map.
    apply map_ext_in. intros [k v] Hin. simpl.
    apply in_split in Hin as (before & after & ->).
    apply multiSet_last_write.
    rewrite map_app in Hnd. simpl in Hnd.
    apply NoDup_app in Hnd as (_ & _ & Hnd).
    apply NoDup_cons in Hnd as [Hnd _]. by rewrite <- list_elem_of_In.
Qed.

Lemma multiSet_then_multiGet_witness :
  let store := MemoryStorage.setItem "events" "[]" ∅ in
  let items := [("a", "1"); ("b", "2"); ("a", "3")] in
  MemoryStorage.getItem "events" (MemoryStorage.multiSet items store) = Some "[]" /\
  MemoryStorage.getItem "a" (MemoryStorage.multiSet items store) = Some "3" /\
  MemoryStorage.multiGet ["a"; "b"]
    (MemoryStorage.multiSet [("a", "1"); ("b", "2")] store)
    = [Some "1"; Some "2"].
Proof.
  intros store items.
  destruct (multiSet_then_multiGet items store) as (H1 & H2 & _).
  destruct (multiSet_then_multiGet [("a", "1"); ("b", "2")] store) as (_ & _ & H3).
  split; [|split].
  - apply H1. vm_compute. intros [H|[H|[H|[]]]]; discriminate H.
  - apply (H2 [("a", "1"); ("b", "2")] "a" "3" []); [reflexivity|]. intros [].
  - apply H3. apply (bool_decide_unpack _). vm_compute. exact I.
Defined.

(** * The listener of useAutoSync *)

Lemma mutations_bounds (hs : list AutoSync.Happening) (isOnline : bool) :
  AutoSync.mutations hs isOnline <= count reportsOnline hs /\
  AutoSync.mutations hs isOnline
    <= (if isOnline then 0 else 1) + count setsOffline hs.
Proof.
  revert isOnline. induction hs as [|h hs IH]; intros isOnline.
  - simpl. unfold count. simpl. lia.
  - unfold count in *. simpl.
    destruct h as [[[|]|]|[|]], isOnline; simpl;
      match goal with
      | |- context [AutoSync.mutations hs ?b] => destruct (IH b) as [H1 H2]
      end; simpl in *; lia.
Qed.

(** X24 (the listener of useAutoSync).  A synchronisation is triggered only
    by a report of a connection that finds [isOnline] false.  So over any
    sequence of connectivity reports and resolutions of the initial check:
    there are at most as many triggers as reports of a connection; there
    are at most as many as happenings that set [isOnline] to false, plus
    one for the initial false; and when the initial check resolves to
    connected before any report, reports of a connection alone trigger
    nothing. *)
Theorem autoSync_triggers (hs : list AutoSync.Happening) :
  AutoSync.mutations hs false <= count reportsOnline hs /\
  AutoSync.mutations hs false <= 1 + count setsOffline hs /\
  (count setsOffline hs = 0 ->
   AutoSync.mutations (AutoSync.InitialCheck true :: hs) false = 0).
Proof.
  destruct (mutations_bounds hs false) as [H1 H2].
  split; [exact H1|]. split; [exact H2|].
  intros H0. simpl. destruct (mutations_bounds hs true) as [_ H3].
  simpl in H3. lia.
Qed.

Lemma autoSync_triggers_witness :
  let hs := [AutoSync.Report (Some true); AutoSync.Report (Some true);
             AutoSync.InitialCheck true; AutoSync.Report (Some true)] in
  AutoSync.mutations hs false <= 3 /\
  AutoSync.mutations (AutoSync.InitialCheck true :: hs) false = 0.
Proof.
  intros hs.
  destruct (autoSync_triggers hs) as (H1 & _ & H3).
  split; [exact H1 | exact (H3 eq_refl)].
Defined.

(** * CreateEventUseCase *)

(** X25 (CreateEventUseCase.execute over createEvent).  Whatever [execute]
    returns carries the generated [id], the fields of the parameters, the
    two instants read by the constructor as [Date]s and no [serverId], and
    is what is stored under that [id].  The PENDING status and zero counter
    that [execute] passes to the constructor are overwritten by
    [createEvent]: the event comes back SENT or PENDING with counter 0 and
    no [lastSyncError], or FAILED with counter 1 and a [lastSyncError]. *)
Theorem execute_returns (uuid nowCreated nowUpdated : string)
    (params : CreateEventUseCase.CreateEventParams) (w w' : World) (r : Returned) :
  CreateEventUseCase.execute uuid nowCreated nowUpdated params w = (Ok r, w') ->
  let e := returned r in
  id e = uuid /\
  objectId e = CreateEventUseCase.p_objectId params /\
  type e = CreateEventUseCase.p_type params /\
  comment e = CreateEventUseCase.p_comment params /\
  occurredAt e = CreateEventUseCase.p_occurredAt params /\
  photoUri e = CreateEventUseCase.p_photoUri params /\
  createdAt e = DateObject nowCreated /\
  updatedAt e = DateObject nowUpdated /\
  serverId e = None /\
  storedEvent uuid w' = Some (toJSON e) /\
  (syncAttempts e = 0%Z /\ lastSyncError e = None /\
   (status e = SENT /\ online w \/ status e = PENDING /\ ~ online w)
   \/
   syncAttempts e = 1%Z /\ status e = FAILED /\ online w /\
   exists reason, lastSyncError e = Some reason /\ reason <> "").
Proof.
  unfold CreateEventUseCase.execute.
  set (event := CreateEventUseCase.EventEntity _ _ _ _ _ _ _ _ _ _ _ _ _ _).
  intros Hrun.
  pose proof (createEvent_sameDetails event w w' r Hrun) as [Hd _].
  assert (Hstored : storedOrUntouched event w (createEvent event w)).
  { revert Hrun. clear. intros Hrun.
    unfold storedOrUntouched, createEvent, bind, try_catch, NetworkInfo.isConnected
      in *.
    destruct (default false (netState w)).
    - pose proof (saveEvent_ok_stored (set_syncAttempts 0 (set_status SENT event)) w) as H1.
      destruct (EventLocalDataSource.saveEvent _ w) as [[[]|err] w1]; simpl in *;
        [by split; [|apply H1]|].
      match goal with
      | |- context [EventLocalDataSource.saveEvent ?f w1] =>
          pose proof (saveEvent_ok_stored f w1) as H2;
          destruct (EventLocalDataSource.saveEvent f w1) as [[[]|err'] w2]
      end; simpl in *; [by split; [|apply H2] | done].
    - pose proof (saveEvent_ok_stored (set_syncAttempts 0 (set_status PENDING event)) w) as H1.
      destruct (EventLocalDataSource.saveEvent _ w) as [[[]|err] w1]; simpl in *;
        [by split; [|apply H1] | done]. }
  rewrite Hrun in Hstored. destruct Hstored as [_ Hst].
  destruct Hd as (D1 & D2 & D3 & D4 & D5 & D6 & D7 & D8 & D9).
  repeat (split; [first [exact D1 | exact D2 | exact D3 | exact D4 | exact D5
                        | exact D6 | exact D7 | exact D8 | exact D9 | exact Hst]|]).
  revert Hrun. unfold createEvent, bind, try_catch, NetworkInfo.isConnected, online.
  destruct (netState w) as [[|]|]; simpl.
  - destruct (EventLocalDataSource.saveEvent _ w) as [[[]|err] w1]; simpl.
    + intros [= <- _]. left. simpl. by auto.
    + destruct (EventLocalDataSource.saveEvent _ w1) as [[[]|err'] w2]; simpl; [|done].
      intros [= <- _]. right. simpl. repeat split; try done.
      eexists. split; [reflexivity|].
      unfold message_or. destruct (String.eqb (message err) "") eqn:Hm; [done|].
      by apply String.eqb_neq.
  - destruct (EventLocalDataSource.saveEvent _ w) as [[[]|err] w1]; simpl; [|done].
    intros [= <- _]. left. simpl. repeat split; try done. by right.
  - destruct (EventLocalDataSource.saveEvent _ w) as [[[]|err] w1]; simpl; [|done].
    intros [= <- _]. left. simpl. repeat split; try done. by right.
Qed.

Lemma execute_returns_witness :
  let params := CreateEventUseCase.mkParams "obj_007" ACCIDENT "Scratched door"
                  (DateObject "2024-05-01T10:00:00.000Z") None in
  let w := sampleWorld (Some true) None [Some "disk full"] in
  exists r w',
    CreateEventUseCase.execute "uuid-1" "2024-05-01T10:05:00.000Z"
      "2024-05-01T10:05:00.001Z" params w = (Ok r, w') /\
    id (returned r) = "uuid-1" /\
    status (returned r) = FAILED /\
    createdAt (returned r) = DateObject "2024-05-01T10:05:00.000Z" /\
    storedEvent "uuid-1" w' = Some (toJSON (returned r)).
Proof.
  intros params w.
  destruct (CreateEventUseCase.execute "uuid-1" "2024-05-01T10:05:00.000Z"
              "2024-05-01T10:05:00.001Z" params w) as [[r|err] w'] eqn:Hrun;
    [|vm_compute in Hrun; discriminate Hrun].
  destruct (execute_returns _ _ _ _ _ _ _ Hrun)
    as (H1 & _ & _ & _ & _ & _ & H7 & _ & _ & H10 & _).
  exists r, w'. repeat split; try assumption.
  vm_compute in Hrun. injection Hrun as <- _. reflexivity.
Defined.
